(** * The multi-target tracker of [deep_sort/sort/tracker.py]

    A shallow embedding of class [Tracker]: its constructor, [predict],
    [update], [_match] and [_initiate_track], with the collaborators it
    imports ([kalman_filter], [linear_assignment], [iou_matching], the
    nearest-neighbour metric) kept behind interfaces.

    Conventions.
    - Python [int]s are [Z]; positions in [self.tracks] and in the detection
      list are [nat] (they come from [enumerate] and from the index lists
      handed to the solvers, so they are never negative).
    - A Python exception is [None] in the [option] monad: [l[k]] with [k] out
      of range raises [IndexError], and a collaborator may raise as well.
    - [list(set(l))] is [elements (list_to_set l)] over [gset nat]; the
      iteration order of a Python set is not specified, and nothing below
      depends on it.
    - Floating-point values (cost matrices, thresholds, filter states,
      feature vectors) are opaque: the tracker only passes them around. *)

From stdpp Require Import base option list gmap sorting.

Set Default Proof Using "Type".
Open Scope Z_scope.

(** ** Data *)

(** Modelled from the spec: the lifecycle states of a Tracked Object (the
    enumeration [TrackState] is not part of the sources). *)
Inductive TrackState := Tentative | Confirmed | Deleted.

Global Instance TrackState_eq_dec : EqDecision TrackState.
Proof. solve_decision. Defined.

(** What the solvers return: the matched (track index, detection index)
    pairs, the unmatched track indices and the unmatched detection indices. *)
Definition MatchResult : Type := list (nat * nat) * list nat * list nat.

(** A [for] loop whose body may raise. *)
Fixpoint for_each {St A} (body : St → A → option St) (l : list A) (s : St)
    : option St :=
  match l with
  | [] => Some s
  | x :: l' => s' ← body s x; for_each body l' s'
  end.

(** Modelled from the spec: class [Detection] is not part of the sources;
    a detection is one bounding box, convertible to centre/aspect/height
    form, and one appearance feature. *)
Record Detection (Feature Box : Type) := mkDetection {
  to_xyah : Box;
  feature : Feature;
}.
Global Arguments mkDetection {_ _} _ _.
Global Arguments to_xyah {_ _} _.
Global Arguments feature {_ _} _.

(** Modelled from the spec: class [Track] is not part of the sources.  The
    fields are those of the spec's data model of a Tracked Object. *)
Record Track (Feature Mean Cov : Type) := mkTrack {
  mean : Mean;
  covariance : Cov;
  track_id : Z;
  hits : Z;
  age : Z;
  time_since_update : Z;
  state : TrackState;
  features : list Feature;
  _n_init : Z;
  _max_age : Z;
}.
Global Arguments mkTrack {_ _ _} _ _ _ _ _ _ _ _ _ _.
Global Arguments mean {_ _ _} _.
Global Arguments covariance {_ _ _} _.
Global Arguments track_id {_ _ _} _.
Global Arguments hits {_ _ _} _.
Global Arguments age {_ _ _} _.
Global Arguments time_since_update {_ _ _} _.
Global Arguments state {_ _ _} _.
Global Arguments features {_ _ _} _.
Global Arguments _n_init {_ _ _} _.
Global Arguments _max_age {_ _ _} _.

(** ** Collaborators *)

(** Modelled from the spec: [kalman_filter.KalmanFilter], the motion filter,
    with the three operations of the spec's interface; the tracker itself
    calls [initiate] and hands the filter on. *)
Class KalmanFilter (Box Mean Cov : Type) := {
  kf_initiate : Box → Mean * Cov;
  kf_predict : Mean → Cov → Mean * Cov;
  kf_update : Mean → Cov → Box → Mean * Cov;
}.

(** [nn_matching.NearestNeighborDistanceMetric]: an object of type [M] that
    owns the appearance gallery.  [distance] reads it, [partial_fit]
    changes it. *)
Class NearestNeighborDistanceMetric (Feature Cost Real M : Type) := {
  matching_threshold : M → Real;
  distance : M → list Feature → list Z → Cost;
  partial_fit : M → list Feature → list Z → list Z → M;
}.

(** A cost function as the solvers call it back:
    [cost_fn(tracks, detections, track_indices, detection_indices)]. *)
Definition CostFn (Feature Box Mean Cov Cost : Type) : Type :=
  list (Track Feature Mean Cov) → list (Detection Feature Box) →
  list nat → list nat → option Cost.

(** [linear_assignment]: the gate on a cost matrix and the two solvers.
    [matching_cascade] is called without [detection_indices], so it works
    on all detections. *)
Class LinearAssignment (Feature Box Mean Cov Cost Real : Type) := {
  gate_cost_matrix :
    KalmanFilter Box Mean Cov → Cost →
    list (Track Feature Mean Cov) → list (Detection Feature Box) →
    list nat → list nat → Cost;
  matching_cascade :
    CostFn Feature Box Mean Cov Cost → Real → Z →
    list (Track Feature Mean Cov) → list (Detection Feature Box) →
    list nat → option MatchResult;
  min_cost_matching :
    CostFn Feature Box Mean Cov Cost → Real →
    list (Track Feature Mean Cov) → list (Detection Feature Box) →
    list nat → list nat → option MatchResult;
}.

(** [iou_matching.iou_cost]. *)
Class IouMatching (Feature Box Mean Cov Cost : Type) := {
  iou_cost : CostFn Feature Box Mean Cov Cost;
}.

(** ** The tracked object *)

Section track.
Context {Feature Box Mean Cov : Type}.
Context (kf : KalmanFilter Box Mean Cov).
Local Abbreviation Track := (Track Feature Mean Cov).
Local Abbreviation Detection := (Detection Feature Box).

(** Modelled from the spec: the state queries [Track.is_confirmed()] and
    [Track.is_deleted()]. *)
Definition is_confirmed (t : Track) : bool :=
  bool_decide (state t = Confirmed).

Definition is_deleted (t : Track) : bool :=
  bool_decide (state t = Deleted).

(** Modelled from the spec: the constructor [Track(mean, covariance,
    track_id, n_init, max_age, feature)].  A Tracked Object is created in
    Tentative state, with no update, frame or miss counted yet, and its
    feature list seeded with the detection's feature. *)
Definition Track_init (mean : Mean) (covariance : Cov) (track_id : Z)
    (n_init max_age : Z) (feature : Feature) : Track :=
  {| mean := mean; covariance := covariance; track_id := track_id;
     hits := 0; age := 0; time_since_update := 0; state := Tentative;
     features := [feature]; _n_init := n_init; _max_age := max_age |}.

(** Modelled from the spec: [Track.predict(kf)] advances the state estimate
    and increments [age] and [time_since_update]. *)
Definition Track_predict (t : Track) : Track :=
  let '(m, c) := kf_predict (mean t) (covariance t) in
  {| mean := m; covariance := c; track_id := track_id t;
     hits := hits t; age := age t + 1;
     time_since_update := time_since_update t + 1; state := state t;
     features := features t; _n_init := _n_init t; _max_age := _max_age t |}.

(** Modelled from the spec: [Track.update(kf, detection)] corrects the state
    estimate with the detection's box, resets the miss counter, appends the
    detection's feature, and turns a Tentative track Confirmed once it has
    [n_init] successful updates. *)
Definition Track_update (t : Track) (d : Detection) : Track :=
  let '(m, c) := kf_update (mean t) (covariance t) (to_xyah d) in
  {| mean := m; covariance := c; track_id := track_id t;
     hits := hits t + 1; age := age t; time_since_update := 0;
     state := if bool_decide (state t = Tentative ∧ _n_init t ≤ hits t + 1)
              then Confirmed else state t;
     features := features t ++ [feature d];
     _n_init := _n_init t; _max_age := _max_age t |}.

(** Modelled from the spec: [Track.mark_missed()].  A Tentative track is
    Deleted on its first miss, a Confirmed one when [time_since_update]
    exceeds [max_age]; a Deleted track is never resurrected. *)
Definition mark_missed (t : Track) : Track :=
  {| mean := mean t; covariance := covariance t; track_id := track_id t;
     hits := hits t; age := age t;
     time_since_update := time_since_update t;
     state := match state t with
              | Tentative => Deleted
              | Confirmed =>
                  if bool_decide (_max_age t < time_since_update t)
                  then Deleted else Confirmed
              | Deleted => Deleted
              end;
     features := features t; _n_init := _n_init t; _max_age := _max_age t |}.

(** [track.features = []]. *)
Definition clear_features (t : Track) : Track :=
  {| mean := mean t; covariance := covariance t; track_id := track_id t;
     hits := hits t; age := age t;
     time_since_update := time_since_update t; state := state t;
     features := []; _n_init := _n_init t; _max_age := _max_age t |}.

End track.

(** ** The tracker *)

(** The attributes of a [Tracker] object. *)
Record Tracker (Feature Box Mean Cov Real M : Type) := mkTracker {
  metric : M;
  max_iou_distance : Real;
  max_age : Z;
  n_init : Z;
  kf : KalmanFilter Box Mean Cov;
  tracks : list (Track Feature Mean Cov);
  _next_id : Z;
}.
Global Arguments mkTracker {_ _ _ _ _ _} _ _ _ _ _ _ _.
Global Arguments metric {_ _ _ _ _ _} _.
Global Arguments max_iou_distance {_ _ _ _ _ _} _.
Global Arguments max_age {_ _ _ _ _ _} _.
Global Arguments n_init {_ _ _ _ _ _} _.
Global Arguments kf {_ _ _ _ _ _} _.
Global Arguments tracks {_ _ _ _ _ _} _.
Global Arguments _next_id {_ _ _ _ _ _} _.

(** The calls a client makes on a tracker, one after the other. *)
Inductive Call (Feature Box : Type) :=
  | CallPredict
  | CallUpdate (detections : list (Detection Feature Box)).
Global Arguments CallPredict {_ _}.
Global Arguments CallUpdate {_ _} _.

Section tracker.
Context {Feature Box Mean Cov Cost Real M : Type}.
Context {KF : KalmanFilter Box Mean Cov}.
Context {NN : NearestNeighborDistanceMetric Feature Cost Real M}.
Context {LA : LinearAssignment Feature Box Mean Cov Cost Real}.
Context {IOU : IouMatching Feature Box Mean Cov Cost}.
Local Abbreviation Track := (Track Feature Mean Cov).
Local Abbreviation Detection := (Detection Feature Box).
Local Abbreviation Tracker := (Tracker Feature Box Mean Cov Real M).

Definition set_tracks (self : Tracker) (trks : list Track) : Tracker :=
  {| metric := metric self; max_iou_distance := max_iou_distance self;
     max_age := max_age self; n_init := n_init self; kf := kf self;
     tracks := trks; _next_id := _next_id self |}.

(** [Tracker.__init__]; the defaults of the keyword arguments are left to
    the caller. *)
Definition Tracker_init (metric : M) (max_iou_distance : Real)
    (max_age n_init : Z) : Tracker :=
  {| metric := metric; max_iou_distance := max_iou_distance;
     max_age := max_age; n_init := n_init; kf := KF;
     tracks := []; _next_id := 1 |}.

(** [Tracker.predict]. *)
Definition predict (self : Tracker) : Tracker :=
  set_tracks self (Track_predict (kf self) <$> tracks self).

(** The closure [gated_metric] of [_match]: appearance distance first, then
    the gate. *)
Definition gated_metric (self : Tracker) : CostFn Feature Box Mean Cov Cost :=
  λ tracks dets track_indices detection_indices,
    features ← mapM (λ i, feature <$> dets !! i) detection_indices;
    targets ← mapM (λ i, track_id <$> tracks !! i) track_indices;
    let cost_matrix := distance (metric self) features targets in
    let cost_matrix :=
      gate_cost_matrix (kf self) cost_matrix tracks dets
        track_indices detection_indices in
    Some cost_matrix.

(** [[i for i, t in enumerate(self.tracks) if t.is_confirmed()]] *)
Definition confirmed_tracks (self : Tracker) : list nat :=
  (filter (λ it, is_confirmed it.2) (imap pair (tracks self))).*1.

(** [[i for i, t in enumerate(self.tracks) if not t.is_confirmed()]] *)
Definition unconfirmed_tracks (self : Tracker) : list nat :=
  (filter (λ it, ¬ is_confirmed it.2) (imap pair (tracks self))).*1.

(** [[k for k in l if p(self.tracks[k].time_since_update)]]; the lookup
    raises out of range. *)
Fixpoint select_by_tsu (trks : list Track) (p : Z → bool) (l : list nat)
    : option (list nat) :=
  match l with
  | [] => Some []
  | k :: l' =>
      t ← trks !! k;
      rest ← select_by_tsu trks p l';
      Some (if p (time_since_update t) then k :: rest else rest)
  end.

(** The test of that comprehension on one index; [false] out of range. *)
Definition tsu_satisfies (trks : list Track) (p : Z → bool) (k : nat) : bool :=
  from_option (λ t, p (time_since_update t)) false (trks !! k).

(** Of the indices Stage A leaves over: those last updated one frame ago,
    [[k for k in l if self.tracks[k].time_since_update == 1]], and the
    others, [[k for k in l if self.tracks[k].time_since_update != 1]],
    where every index is in range. *)
Definition just_missed (trks : list Track) (l : list nat) : list nat :=
  filter (λ k, tsu_satisfies trks (λ n, bool_decide (n = 1)) k) l.

Definition long_missed (trks : list Track) (l : list nat) : list nat :=
  filter (λ k, tsu_satisfies trks (λ n, bool_decide (n ≠ 1)) k) l.

(** Stage A of [_match]: the cascade over the confirmed tracks. *)
Definition stage_a (self : Tracker) (detections : list Detection)
    : option MatchResult :=
  matching_cascade (gated_metric self) (matching_threshold (metric self))
    (max_age self) (tracks self) detections (confirmed_tracks self).

(** The track indices offered to Stage B. *)
Definition iou_track_candidates (self : Tracker) (unmatched_tracks_a : list nat)
    : option (list nat) :=
  stale1 ← select_by_tsu (tracks self) (λ n, bool_decide (n = 1))
              unmatched_tracks_a;
  Some (unconfirmed_tracks self ++ stale1).

(** Stage B of [_match]: minimum-cost matching on the IOU cost. *)
Definition stage_b (self : Tracker) (detections : list Detection)
    (iou_track_candidates unmatched_detections : list nat)
    : option MatchResult :=
  min_cost_matching iou_cost (max_iou_distance self) (tracks self) detections
    iou_track_candidates unmatched_detections.

(** [Tracker._match]. *)
Definition _match (self : Tracker) (detections : list Detection)
    : option MatchResult :=
  '(matches_a, unmatched_tracks_a, unmatched_detections) ←
     stage_a self detections;
  iou_track_candidates ← iou_track_candidates self unmatched_tracks_a;
  unmatched_tracks_a ← select_by_tsu (tracks self)
                         (λ n, bool_decide (n ≠ 1)) unmatched_tracks_a;
  '(matches_b, unmatched_tracks_b, unmatched_detections) ←
     stage_b self detections iou_track_candidates unmatched_detections;
  let matches := matches_a ++ matches_b in
  let unmatched_tracks :=
    elements (list_to_set (C := gset nat)
                (unmatched_tracks_a ++ unmatched_tracks_b)) in
  Some (matches, unmatched_tracks, unmatched_detections).

(** [Tracker._initiate_track]; the filter is the tracker's own,
    [self.kf]. *)
Definition _initiate_track (self : Tracker) (detection : Detection)
    : Tracker :=
  let '(mean, covariance) :=
    kf_initiate (KalmanFilter := kf self) (to_xyah detection) in
  {| metric := metric self; max_iou_distance := max_iou_distance self;
     max_age := max_age self; n_init := n_init self; kf := kf self;
     tracks := tracks self ++
       [Track_init mean covariance (_next_id self) (n_init self)
          (max_age self) (feature detection)];
     _next_id := _next_id self + 1 |}.

(** The three loops of [update] that apply the outcome of the matching. *)
Definition update_matched (detections : list Detection) (self : Tracker)
    (m : nat * nat) : option Tracker :=
  let '(track_idx, detection_idx) := m in
  t ← tracks self !! track_idx;
  d ← detections !! detection_idx;
  Some (set_tracks self (<[track_idx := Track_update (kf self) t d]> (tracks self))).

Definition update_missed (self : Tracker) (track_idx : nat) : option Tracker :=
  t ← tracks self !! track_idx;
  Some (set_tracks self (<[track_idx := mark_missed t]> (tracks self))).

Definition update_initiated (detections : list Detection) (self : Tracker)
    (detection_idx : nat) : option Tracker :=
  d ← detections !! detection_idx;
  Some (_initiate_track self d).

Definition apply_outcomes (self : Tracker) (detections : list Detection)
    (r : MatchResult) : option Tracker :=
  let '(matches, unmatched_tracks, unmatched_detections) := r in
  self ← for_each (update_matched detections) matches self;
  self ← for_each update_missed unmatched_tracks self;
  for_each (update_initiated detections) unmatched_detections self.

(** The attributes that only [__init__] sets. *)
Definition same_settings (self self' : Tracker) : Prop :=
  max_iou_distance self' = max_iou_distance self ∧
  max_age self' = max_age self ∧ n_init self' = n_init self ∧
  kf self' = kf self.

(** What the first two loops leave alone: everything but the tracks, whose
    number does not change. *)
Definition same_but_tracks (self self' : Tracker) : Prop :=
  metric self' = metric self ∧ same_settings self self' ∧
  _next_id self' = _next_id self ∧
  length (tracks self') = length (tracks self).

(** The track that [_initiate_track] builds for a detection when the
    identity counter stands at [id]. *)
Definition new_track (self : Tracker) (id : Z) (detection : Detection)
    : Track :=
  Track_init
    (kf_initiate (KalmanFilter := kf self) (to_xyah detection)).1
    (kf_initiate (KalmanFilter := kf self) (to_xyah detection)).2
    id (n_init self) (max_age self) (feature detection).

(** [self.tracks = [t for t in self.tracks if not t.is_deleted()]] *)
Definition prune (self : Tracker) : Tracker :=
  set_tracks self (filter (λ t, ¬ is_deleted t) (tracks self)).

(** One turn of the loop that collects the features of the confirmed tracks:
    the accumulators are [features], [targets] and the tracks seen so far. *)
Definition collect_step (acc : list Feature * list Z * list Track) (track : Track)
    : list Feature * list Z * list Track :=
  let '(features_acc, targets, seen) := acc in
  if negb (is_confirmed track) then (features_acc, targets, seen ++ [track])
  else (features_acc ++ features track,
        targets ++ ((λ _, track_id track) <$> features track),
        seen ++ [clear_features track]).

(** What that loop computes, as comprehensions: the features of the
    confirmed tracks in order, the identity of its track for each of them,
    and the tracks with the feature lists of the confirmed ones emptied. *)
Definition collected_features (trks : list Track) : list Feature :=
  filter (λ t, is_confirmed t) trks ≫= features.

Definition collected_targets (trks : list Track) : list Z :=
  filter (λ t, is_confirmed t) trks ≫=
    (λ t, (λ _, track_id t) <$> features t).

Definition handed_over (t : Track) : Track :=
  if is_confirmed t then clear_features t else t.

(** The last part of [update]: hand the collected features to the metric. *)
Definition refresh_gallery (self : Tracker) : Tracker :=
  let active_targets := track_id <$> filter (λ t, is_confirmed t) (tracks self) in
  let '(features, targets, trks) :=
    foldl collect_step ([], [], []) (tracks self) in
  {| metric := partial_fit (metric self) features targets active_targets;
     max_iou_distance := max_iou_distance self;
     max_age := max_age self; n_init := n_init self; kf := kf self;
     tracks := trks; _next_id := _next_id self |}.

(** [Tracker.update]. *)
Definition update (self : Tracker) (detections : list Detection)
    : option Tracker :=
  r ← _match self detections;
  self ← apply_outcomes self detections r;
  Some (refresh_gallery (prune self)).

(** ** What the tracker expects of the solvers *)

(** Modelled from the spec: module [linear_assignment] is not part of the
    sources.  A solver returns the matched pairs, the unmatched track
    indices and the unmatched detection indices: its result partitions the
    indices it was given, every track index being matched once or left over
    once, and so every detection index. *)
Definition partitions (track_indices detection_indices : list nat)
    (r : MatchResult) : Prop :=
  r.1.1.*1 ++ r.1.2 ≡ₚ track_indices ∧
  r.1.1.*2 ++ r.2 ≡ₚ detection_indices.

Definition in_range {A} (l : list A) (indices : list nat) : Prop :=
  Forall (λ i, (i < length l)%nat) indices.

(** Modelled from the spec: the contract of [matching_cascade], which is
    not part of the sources.  Called as Stage A calls it, the cascade
    returns a partition of any duplicate-free list of valid track indices
    and of all detections. *)
Definition cascade_contract (self : Tracker) (detections : list Detection)
    : Prop :=
  ∀ track_indices,
    NoDup track_indices → in_range (tracks self) track_indices →
    ∃ r, matching_cascade (gated_metric self)
           (matching_threshold (metric self)) (max_age self) (tracks self)
           detections track_indices = Some r ∧
         partitions track_indices (seq 0 (length detections)) r.

(** Modelled from the spec: the contract of [min_cost_matching], which is
    not part of the sources.  Called as Stage B calls it, the solver
    returns a partition of any duplicate-free lists of valid indices. *)
Definition min_cost_contract (self : Tracker) (detections : list Detection)
    : Prop :=
  ∀ track_indices detection_indices,
    NoDup track_indices → NoDup detection_indices →
    in_range (tracks self) track_indices →
    in_range detections detection_indices →
    ∃ r, stage_b self detections track_indices detection_indices = Some r ∧
         partitions track_indices detection_indices r.

(** The feature lists of the confirmed tracks have been handed over: this
    is how [update] leaves the active track set. *)
Definition flushed (trks : list Track) : Prop :=
  Forall (λ t, is_confirmed t → features t = []) trks.

(** What the two stages return when the solvers keep their contracts. *)
Record stages_ok (self : Tracker) (detections : list Detection)
    (ra rb : MatchResult) (candidates : list nat) : Prop := {
  stages_a : stage_a self detections = Some ra;
  stages_a_parts :
    partitions (confirmed_tracks self) (seq 0 (length detections)) ra;
  stages_candidates :
    candidates
    = unconfirmed_tracks self ++ just_missed (tracks self) ra.1.2;
  stages_b : stage_b self detections candidates ra.2 = Some rb;
  stages_b_parts : partitions candidates ra.2 rb;
  stages_match :
    _match self detections
    = Some (ra.1.1 ++ rb.1.1,
            elements (list_to_set (C := gset nat)
              (long_missed (tracks self) ra.1.2 ++ rb.1.2)),
            rb.2);
}.

(** A session: the calls made on one tracker, in order. *)
Definition call (self : Tracker) (c : Call Feature Box) : option Tracker :=
  match c with
  | CallPredict => Some (predict self)
  | CallUpdate detections => update self detections
  end.

Definition run (self : Tracker) (calls : list (Call Feature Box))
    : option Tracker :=
  for_each call calls self.

(** How many of the calls of a session are calls of [update]. *)
Fixpoint count_updates (calls : list (Call Feature Box)) : nat :=
  match calls with
  | [] => 0%nat
  | CallPredict :: calls' => count_updates calls'
  | CallUpdate _ :: calls' => S (count_updates calls')
  end.

(** The tracks that a call appends to the active set, before pruning:
    [predict] creates none, [update] those past the old end of the list. *)
Definition created (self : Tracker) (c : Call Feature Box) : list Track :=
  match c with
  | CallPredict => []
  | CallUpdate detections =>
      match _match self detections ≫= apply_outcomes self detections with
      | Some self' => drop (length (tracks self)) (tracks self')
      | None => []
      end
  end.

(** The identities assigned during a session, in creation order. *)
Fixpoint assigned_ids (self : Tracker) (calls : list (Call Feature Box))
    : list Z :=
  match calls with
  | [] => []
  | c :: calls' =>
      (track_id <$> created self c) ++
      match call self c with
      | Some self' => assigned_ids self' calls'
      | None => []
      end
  end.

End tracker.

(** ** A concrete world to run the tracker in

    Features, boxes and filter states are numbers; a cost matrix is the
    term that records how it was computed; the metric either records the
    calls of [partial_fit] or keeps a gallery. *)

Inductive DemoCost :=
  | Dist (features : list nat) (targets : list Z)
  | Gated (cost_matrix : DemoCost) (track_indices detection_indices : list nat)
  | Iou (track_indices detection_indices : list nat).

Definition demo_kf : KalmanFilter nat nat nat :=
  {| kf_initiate box := (box, 0%nat);
     kf_predict m c := (S m, S c);
     kf_update m c box := (box, c) |}.

(** A metric that records the arguments of each [partial_fit]: its state is
    the log of the calls, and what [distance] and the threshold are may
    depend on that log in any way. *)
Definition PartialFitLog (Feature : Type) : Type :=
  list (list Feature * list Z * list Z).

Definition recording_metric {Feature Cost Real : Type}
    (threshold : PartialFitLog Feature → Real)
    (dist : PartialFitLog Feature → list Feature → list Z → Cost)
    : NearestNeighborDistanceMetric Feature Cost Real (PartialFitLog Feature) :=
  {| matching_threshold := threshold;
     distance := dist;
     partial_fit log features targets active_targets :=
       log ++ [(features, targets, active_targets)] |}.

Definition demo_metric
    : NearestNeighborDistanceMetric nat DemoCost nat (PartialFitLog nat) :=
  recording_metric (λ _, 0%nat) (λ _, Dist).

(** Modelled from the spec: the appearance gallery, a mapping from identity
    to past features; [partial_fit] replaces each active identity's gallery
    by the features tagged with it and discards the galleries of the
    identities absent from [active_targets]. *)
Definition gallery_partial_fit (gallery : gmap Z (list nat))
    (features : list nat) (targets active_targets : list Z)
    : gmap Z (list nat) :=
  list_to_map
    ((λ k, (k, (filter (λ ft, ft.2 = k) (zip features targets)).*1))
       <$> active_targets).

Definition gallery_metric
    : NearestNeighborDistanceMetric nat DemoCost nat (gmap Z (list nat)) :=
  {| matching_threshold _ := 0%nat;
     distance _ features targets := Dist features targets;
     partial_fit := gallery_partial_fit |}.

(** Two plain solvers: the minimum-cost one pairs tracks and detections in
    the order given, the cascade matches the first track only. *)
Definition demo_min_cost (cost_fn : CostFn nat nat nat nat DemoCost)
    (max_distance : nat) (trks : list (Track nat nat nat))
    (dets : list (Detection nat nat)) (track_indices detection_indices : list nat)
    : option MatchResult :=
  _ ← cost_fn trks dets track_indices detection_indices;
  Some (zip track_indices detection_indices,
        drop (length detection_indices) track_indices,
        drop (length track_indices) detection_indices).

Definition demo_cascade (cost_fn : CostFn nat nat nat nat DemoCost)
    (max_distance : nat) (cascade_depth : Z) (trks : list (Track nat nat nat))
    (dets : list (Detection nat nat)) (track_indices : list nat)
    : option MatchResult :=
  let detection_indices := seq 0 (length dets) in
  _ ← cost_fn trks dets track_indices detection_indices;
  Some (zip (take 1 track_indices) detection_indices,
        drop (length detection_indices) (take 1 track_indices)
          ++ drop 1 track_indices,
        drop (length (take 1 track_indices)) detection_indices).

Definition demo_la : LinearAssignment nat nat nat nat DemoCost nat :=
  {| gate_cost_matrix _ cost_matrix _ _ track_indices detection_indices :=
       Gated cost_matrix track_indices detection_indices;
     matching_cascade := demo_cascade;
     min_cost_matching := demo_min_cost |}.

Definition demo_iou : IouMatching nat nat nat nat DemoCost :=
  {| iou_cost _ _ track_indices detection_indices :=
       Some (Iou track_indices detection_indices) |}.

Definition demo_track (id : Z) (st : TrackState) (tsu : Z) (fs : list nat)
    : Track nat nat nat :=
  {| mean := 0%nat; covariance := 0%nat; track_id := id; hits := 3; age := 5;
     time_since_update := tsu; state := st; features := fs;
     _n_init := 3; _max_age := 70 |}.

(** Four tracks: two confirmed and one tentative seen in the last frame, one
    confirmed that has been missing for three frames. *)
Definition demo_tracks : list (Track nat nat nat) :=
  [demo_track 1 Confirmed 1 []; demo_track 2 Tentative 1 [7%nat];
   demo_track 3 Confirmed 1 []; demo_track 4 Confirmed 3 []].

Definition demo_detections : list (Detection nat nat) :=
  [mkDetection 20%nat 10%nat; mkDetection 21%nat 11%nat;
   mkDetection 22%nat 12%nat; mkDetection 23%nat 13%nat].

Definition demo_tracker {M} (m : M) (trks : list (Track nat nat nat))
    (next_id : Z) : Tracker nat nat nat nat nat M :=
  {| metric := m; max_iou_distance := 0%nat; max_age := 70; n_init := 3;
     kf := demo_kf; tracks := trks; _next_id := next_id |}.

Definition demo_self : Tracker nat nat nat nat nat (PartialFitLog nat) :=
  demo_tracker [] demo_tracks 5.

(** A tracker without tracks. *)
Definition demo_fresh : Tracker nat nat nat nat nat (PartialFitLog nat) :=
  demo_tracker [] [] 1.

(** Two frames: four detections, then two. *)
Definition demo_session : list (Call nat nat) :=
  [CallPredict; CallUpdate demo_detections;
   CallPredict; CallUpdate (take 2 demo_detections)].

(** A filter other than the one [__init__] builds, and the two trackers
    above with that filter as their [kf]. *)
Definition shifted_kf : KalmanFilter nat nat nat :=
  {| kf_initiate box := (100 + box, 1)%nat;
     kf_predict m c := (m + 2, c)%nat;
     kf_update m c box := (1000 + box, c)%nat |}.

Definition with_kf {M} (k : KalmanFilter nat nat nat)
    (self : Tracker nat nat nat nat nat M) : Tracker nat nat nat nat nat M :=
  {| metric := metric self; max_iou_distance := max_iou_distance self;
     max_age := max_age self; n_init := n_init self; kf := k;
     tracks := tracks self; _next_id := _next_id self |}.

Definition demo_shifted : Tracker nat nat nat nat nat (PartialFitLog nat) :=
  with_kf shifted_kf demo_self.

Definition fresh_shifted : Tracker nat nat nat nat nat (PartialFitLog nat) :=
  with_kf shifted_kf demo_fresh.

(** A cascade that breaks its contract: it leaves over the track index 9,
    whatever the tracks are. *)
Definition rogue_la : LinearAssignment nat nat nat nat DemoCost nat :=
  {| gate_cost_matrix _ cost_matrix _ _ track_indices detection_indices :=
       Gated cost_matrix track_indices detection_indices;
     matching_cascade _ _ _ _ dets _ :=
       Some ([], [9%nat], seq 0 (length dets));
     min_cost_matching := demo_min_cost |}.

(** A confirmed track that has been missing for longer than [max_age]. *)
Definition lost_track : Track nat nat nat := demo_track 1 Confirmed 71 [].

(** * Properties *)

(** ** Loops and index lists *)

Section loops.
Context {St A : Type}.
Implicit Types (body : St → A → option St) (l : list A) (s : St).

Lemma for_each_app body l1 l2 s :
  for_each body (l1 ++ l2) s = for_each body l1 s ≫= for_each body l2.
Proof.
  revert s. induction l1 as [|x l1 IH]; intros s; simpl; [done|].
  destruct (body s x) as [s'|]; simpl; [apply IH | done].
Qed.

Lemma for_each_cons_Some body x l s s' :
  for_each body (x :: l) s = Some s' ↔
  ∃ s1, body s x = Some s1 ∧ for_each body l s1 = Some s'.
Proof.
  simpl. destruct (body s x) as [s1|]; simpl.
  - split; [eauto | by intros (? & [= <-] & ?)].
  - split; [done | by intros (? & ? & _)].
Qed.

(** A loop whose body keeps an invariant keeps it. *)
Lemma for_each_invariant (I : St → Prop) body l s s' :
  (∀ s x s', x ∈ l → I s → body s x = Some s' → I s') →
  I s → for_each body l s = Some s' → I s'.
Proof.
  revert s. induction l as [|x l IH]; intros s Hbody Hs Hrun; simpl in *.
  - by simplify_eq.
  - destruct (body s x) as [s1|] eqn:Hx; simpl in *; [|done].
    apply (IH s1); [|by eapply Hbody; [left|..]|done].
    intros ???? ; apply Hbody. by right.
Qed.

End loops.

Section index_lists.
Context {A : Type} (P : nat * A → Prop) `{!∀ x, Decision (P x)}.
Implicit Types l : list A.

Lemma fst_enumerate l : (imap pair l).*1 = seq 0 (length l).
Proof.
  rewrite fmap_imap, <-(list_fmap_id (seq 0 (length l))).
  rewrite <-(imap_seq_0 l id). by apply imap_ext.
Qed.

Lemma elem_of_indices l k :
  k ∈ (filter P (imap pair l)).*1 ↔ ∃ x, l !! k = Some x ∧ P (k, x).
Proof.
  rewrite list_elem_of_fmap. split.
  - intros [[i x] [-> [HP Hin]%list_elem_of_filter]].
    apply elem_of_lookup_imap in Hin as (j & y & [= -> ->] & Hj). eauto.
  - intros (x & Hk & HP). exists (k, x). split; [done|].
    apply list_elem_of_filter. split; [done|].
    apply elem_of_lookup_imap. eauto.
Qed.

Lemma NoDup_indices l : NoDup (filter P (imap pair l)).*1.
Proof.
  apply (sublist_NoDup _ (seq 0 (length l))); [apply NoDup_seq|].
  rewrite <-fst_enumerate. by apply fmap_sublist, sublist_filter.
Qed.

Lemma indices_complement l :
  (filter P (imap pair l)).*1 ++ (filter (λ x, ¬ P x) (imap pair l)).*1
  ≡ₚ seq 0 (length l).
Proof. by rewrite <-fmap_app, filter_app_complement, fst_enumerate. Qed.

End index_lists.

(** ** The matching step *)

Section matching.
Context {Feature Box Mean Cov Cost Real M : Type}.
Context {KF : KalmanFilter Box Mean Cov}.
Context {NN : NearestNeighborDistanceMetric Feature Cost Real M}.
Context {LA : LinearAssignment Feature Box Mean Cov Cost Real}.
Context {IOU : IouMatching Feature Box Mean Cov Cost}.
Local Abbreviation Track := (Track Feature Mean Cov).
Local Abbreviation Detection := (Detection Feature Box).
Local Abbreviation Tracker := (Tracker Feature Box Mean Cov Real M).
Implicit Types (self : Tracker) (detections : list Detection).
Implicit Types (trks : list Track) (t : Track) (l : list nat) (k : nat).

Lemma is_confirmed_spec t : is_confirmed t ↔ state t = Confirmed.
Proof. apply bool_decide_spec. Qed.

Lemma is_deleted_spec t : is_deleted t ↔ state t = Deleted.
Proof. apply bool_decide_spec. Qed.

Lemma elem_of_confirmed_tracks self i :
  i ∈ confirmed_tracks self ↔
  ∃ t, tracks self !! i = Some t ∧ state t = Confirmed.
Proof.
  unfold confirmed_tracks. rewrite elem_of_indices. simpl.
  by setoid_rewrite is_confirmed_spec.
Qed.

Lemma elem_of_unconfirmed_tracks self i :
  i ∈ unconfirmed_tracks self ↔
  ∃ t, tracks self !! i = Some t ∧ state t ≠ Confirmed.
Proof.
  unfold unconfirmed_tracks. rewrite elem_of_indices. simpl.
  by setoid_rewrite is_confirmed_spec.
Qed.

Lemma NoDup_confirmed_tracks self : NoDup (confirmed_tracks self).
Proof. apply NoDup_indices. Qed.

Lemma NoDup_unconfirmed_tracks self : NoDup (unconfirmed_tracks self).
Proof. apply NoDup_indices. Qed.

Lemma confirmed_unconfirmed self :
  confirmed_tracks self ++ unconfirmed_tracks self
  ≡ₚ seq 0 (length (tracks self)).
Proof. apply (indices_complement (λ it, is_confirmed it.2)). Qed.

Lemma in_range_lookup {A} (l : list A) indices :
  in_range l indices ↔ ∀ i, i ∈ indices → is_Some (l !! i).
Proof.
  unfold in_range. rewrite Forall_forall.
  by setoid_rewrite lookup_lt_is_Some.
Qed.

Lemma in_range_seq {A} (l : list A) indices :
  indices ≡ₚ seq 0 (length l) → in_range l indices.
Proof.
  intros Hp. unfold in_range. rewrite Hp. apply Forall_seq. lia.
Qed.

Lemma confirmed_in_range self : in_range (tracks self) (confirmed_tracks self).
Proof.
  apply in_range_lookup. intros i (t & -> & _)%elem_of_confirmed_tracks. eauto.
Qed.

Lemma unconfirmed_in_range self :
  in_range (tracks self) (unconfirmed_tracks self).
Proof.
  apply in_range_lookup. intros i (t & -> & _)%elem_of_unconfirmed_tracks. eauto.
Qed.

Lemma filter_tsu_cons trks p k l t :
  trks !! k = Some t →
  filter (λ k, tsu_satisfies trks p k) (k :: l)
  = if p (time_since_update t)
    then k :: filter (λ k, tsu_satisfies trks p k) l
    else filter (λ k, tsu_satisfies trks p k) l.
Proof.
  intros Hk.
  assert (tsu_satisfies trks p k = p (time_since_update t)) as Hs
    by (unfold tsu_satisfies; by rewrite Hk).
  destruct (p (time_since_update t)).
  - rewrite filter_cons_True; [done | by rewrite Hs].
  - rewrite filter_cons_False; [done | rewrite Hs; by intros []].
Qed.

(** The comprehension over [time_since_update] is a filter, and it raises
    exactly when an index is out of range. *)
Lemma select_by_tsu_Some trks p l r :
  select_by_tsu trks p l = Some r →
  in_range trks l ∧ r = filter (λ k, tsu_satisfies trks p k) l.
Proof.
  revert r. induction l as [|k l IH]; intros r Hsel; simpl in *.
  - simplify_eq. split; [constructor | done].
  - destruct (trks !! k) as [t|] eqn:Hk; simpl in *; [|done].
    destruct (select_by_tsu trks p l) as [rest|]; simpl in *; [|done].
    destruct (IH rest eq_refl) as [Hr ->]. simplify_eq. split.
    + constructor; [|done]. apply lookup_lt_is_Some; eauto.
    + by rewrite (filter_tsu_cons _ _ _ _ t).
Qed.

Lemma select_by_tsu_in_range trks p l :
  in_range trks l →
  select_by_tsu trks p l = Some (filter (λ k, tsu_satisfies trks p k) l).
Proof.
  induction 1 as [|k l Hk _ IH]; simpl; [done|].
  apply lookup_lt_is_Some in Hk as [t Hk]. rewrite Hk, IH. simpl.
  by rewrite (filter_tsu_cons _ _ _ _ t).
Qed.

Lemma elem_of_filter_tsu trks p l k :
  k ∈ filter (λ k, tsu_satisfies trks p k) l ↔
  k ∈ l ∧ ∃ t, trks !! k = Some t ∧ p (time_since_update t) = true.
Proof.
  rewrite list_elem_of_filter. unfold tsu_satisfies.
  destruct (trks !! k) as [t|]; simpl.
  - rewrite Is_true_true. split.
    + intros [??]. eauto.
    + intros [? (t' & [= <-] & ?)]. done.
  - split; [by intros [[] _] | by intros [_ (? & ? & _)]].
Qed.

Lemma elem_of_just_missed trks l k :
  k ∈ just_missed trks l ↔
  k ∈ l ∧ ∃ t, trks !! k = Some t ∧ time_since_update t = 1.
Proof.
  unfold just_missed. rewrite elem_of_filter_tsu.
  by setoid_rewrite bool_decide_eq_true.
Qed.

Lemma elem_of_long_missed trks l k :
  k ∈ long_missed trks l ↔
  k ∈ l ∧ ∃ t, trks !! k = Some t ∧ time_since_update t ≠ 1.
Proof.
  unfold long_missed. rewrite elem_of_filter_tsu.
  by setoid_rewrite bool_decide_eq_true.
Qed.

(** The two comprehensions split the list they are taken from. *)
Lemma just_long_missed trks l :
  in_range trks l → just_missed trks l ++ long_missed trks l ≡ₚ l.
Proof.
  unfold just_missed, long_missed.
  induction 1 as [|k l Hk _ IH]; [done|].
  apply lookup_lt_is_Some in Hk as [t Hk].
  rewrite !(filter_tsu_cons _ _ _ _ t) by done.
  destruct (decide (time_since_update t = 1)) as [H1|H1].
  - rewrite bool_decide_eq_true_2, bool_decide_eq_false_2 by auto.
    simpl. by f_equiv.
  - rewrite bool_decide_eq_false_2, bool_decide_eq_true_2 by auto.
    rewrite <-Permutation_middle. by f_equiv.
Qed.

(** [_match] returns exactly when both stages return and the indices that
    Stage A leaves over exist; its result is built from theirs. *)
Lemma _match_Some self detections r :
  _match self detections = Some r ↔
  ∃ matches_a unmatched_tracks_a unmatched_detections_a
    matches_b unmatched_tracks_b unmatched_detections_b,
    stage_a self detections
      = Some (matches_a, unmatched_tracks_a, unmatched_detections_a) ∧
    in_range (tracks self) unmatched_tracks_a ∧
    stage_b self detections
      (unconfirmed_tracks self ++ just_missed (tracks self) unmatched_tracks_a)
      unmatched_detections_a
      = Some (matches_b, unmatched_tracks_b, unmatched_detections_b) ∧
    r = (matches_a ++ matches_b,
         elements (list_to_set (C := gset nat)
           (long_missed (tracks self) unmatched_tracks_a
            ++ unmatched_tracks_b)),
         unmatched_detections_b).
Proof.
  unfold _match, iou_track_candidates, just_missed, long_missed. split.
  - intros Hm.
    destruct (stage_a self detections) as [[[ma ua] uda]|]; simpl in *; [|done].
    destruct (select_by_tsu _ (λ n, bool_decide (n = 1)) ua) as [s1|] eqn:H1;
      simpl in *; [|done].
    destruct (select_by_tsu _ (λ n, bool_decide (n ≠ 1)) ua) as [s2|] eqn:H2;
      simpl in *; [|done].
    apply select_by_tsu_Some in H1 as [Hr ->].
    apply select_by_tsu_Some in H2 as [_ ->].
    destruct (stage_b _ _ _ _) as [[[mb ub] udb]|] eqn:Hb; simpl in *; [|done].
    simplify_eq. by exists ma, ua, uda, mb, ub, udb.
  - intros (ma & ua & uda & mb & ub & udb & -> & Hr & Hb & ->). simpl.
    rewrite !select_by_tsu_in_range by done. simpl. by rewrite Hb.
Qed.

Lemma iou_track_candidates_in_range self l :
  in_range (tracks self) l →
  iou_track_candidates self l
  = Some (unconfirmed_tracks self ++ just_missed (tracks self) l).
Proof.
  intros Hl. unfold iou_track_candidates.
  by rewrite select_by_tsu_in_range.
Qed.

Lemma partitions_NoDup track_indices detection_indices r :
  NoDup track_indices → NoDup detection_indices →
  partitions track_indices detection_indices r →
  NoDup r.1.2 ∧ NoDup r.2 ∧
  (∀ k, k ∈ r.1.2 → k ∈ track_indices ∧ k ∉ r.1.1.*1) ∧
  (∀ k, k ∈ r.1.1.*1 → k ∈ track_indices) ∧
  (∀ j, j ∈ r.2 → j ∈ detection_indices).
Proof.
  intros Ht Hd [Hpt Hpd]. rewrite <-Hpt in Ht. rewrite <-Hpd in Hd.
  apply NoDup_app in Ht as (_ & Hdisj & Hu).
  apply NoDup_app in Hd as (_ & _ & Hud).
  split_and!; [done | done | | |].
  - intros k Hk. split.
    + rewrite <-Hpt. apply elem_of_app. by right.
    + intros Hm. by eapply Hdisj.
  - intros k Hk. rewrite <-Hpt. apply elem_of_app. by left.
  - intros j Hj. rewrite <-Hpd. apply elem_of_app. by right.
Qed.

Lemma stages_run self detections :
  cascade_contract self detections → min_cost_contract self detections →
  ∃ ra rb candidates, stages_ok self detections ra rb candidates.
Proof.
  intros Hca Hmc.
  destruct (Hca (confirmed_tracks self) (NoDup_confirmed_tracks self)
              (confirmed_in_range self)) as ([[ma ua] uda] & Ha & Hpa).
  destruct (partitions_NoDup _ _ _ (NoDup_confirmed_tracks self)
              (NoDup_seq 0 (length detections)) Hpa)
    as (Hua & Huda & Hua_in & _ & Huda_in); simpl in *.
  assert (in_range (tracks self) ua) as Hua_r.
  { apply in_range_lookup. intros k Hk.
    destruct (Hua_in k Hk) as [(t & -> & _)%elem_of_confirmed_tracks _]. eauto. }
  set (cand := unconfirmed_tracks self ++ just_missed (tracks self) ua).
  assert (NoDup cand) as Hcand.
  { apply NoDup_app. split_and!.
    - apply NoDup_unconfirmed_tracks.
    - intros k (t & Hk & Hne)%elem_of_unconfirmed_tracks [Hin _]%elem_of_just_missed.
      apply Hua_in in Hin as [Hin _].
      apply elem_of_confirmed_tracks in Hin as (t' & Hk' & Hc). congruence.
    - by apply NoDup_filter. }
  assert (in_range (tracks self) cand) as Hcand_r.
  { apply Forall_app. split; [apply unconfirmed_in_range|].
    apply in_range_lookup. intros k [Hk _]%elem_of_just_missed.
    by apply (proj1 (in_range_lookup _ _) Hua_r). }
  assert (in_range detections uda) as Huda_r.
  { apply Forall_forall. intros j Hj. apply Huda_in, elem_of_seq in Hj. lia. }
  destruct (Hmc cand uda Hcand Huda Hcand_r Huda_r)
    as ([[mb ub] udb] & Hb & Hpb).
  exists (ma, ua, uda), (mb, ub, udb), cand.
  split; simpl; try done.
  apply _match_Some. by exists ma, ua, uda, mb, ub, udb.
Qed.

(** The merged result before deduplication already lists every track index
    once, so [list(set(...))] only fixes an order. *)
Lemma stages_track_split self detections ra rb candidates :
  stages_ok self detections ra rb candidates →
  (ra.1.1 ++ rb.1.1).*1 ++ (long_missed (tracks self) ra.1.2 ++ rb.1.2)
  ≡ₚ seq 0 (length (tracks self)).
Proof.
  intros [Ha [Hpa _] -> Hb [Hpb _] _].
  destruct ra as [[ma ua] uda], rb as [[mb ub] udb]; simpl in *.
  assert (in_range (tracks self) ua) as Hr.
  { apply in_range_lookup. intros k Hk.
    assert (k ∈ confirmed_tracks self) as (t & -> & _)%elem_of_confirmed_tracks
      by (rewrite <-Hpa; apply elem_of_app; by right).
    eauto. }
  pose proof (just_long_missed (tracks self) ua Hr) as Hjl.
  transitivity (confirmed_tracks self ++ unconfirmed_tracks self);
    [|apply confirmed_unconfirmed].
  transitivity
    ((ma.*1 ++ just_missed (tracks self) ua ++ long_missed (tracks self) ua)
       ++ unconfirmed_tracks self); [|by rewrite Hjl, Hpa].
  rewrite fmap_app, <-!(assoc (++)).
  f_equiv.
  rewrite (comm (++) (long_missed _ _) ub), (assoc (++) (mb.*1)), Hpb.
  rewrite <-!(assoc (++)), (comm (++) (unconfirmed_tracks self)).
  by rewrite <-!(assoc (++)).
Qed.

Lemma match_partition self detections :
  cascade_contract self detections → min_cost_contract self detections →
  ∃ r, _match self detections = Some r ∧
       partitions (seq 0 (length (tracks self)))
         (seq 0 (length detections)) r.
Proof.
  intros Hca Hmc.
  destruct (stages_run _ _ Hca Hmc) as (ra & rb & cand & Hok).
  pose proof (stages_track_split _ _ _ _ _ Hok) as Hsplit.
  destruct Hok as [Ha [_ Hpa] -> Hb [_ Hpb] Hm].
  eexists; split; [exact Hm|]. split; simpl.
  - rewrite elements_list_to_set; [done|].
    assert (NoDup (seq 0 (length (tracks self)))) as Hnd by apply NoDup_seq.
    rewrite <-Hsplit in Hnd. by apply NoDup_app in Hnd as (_ & _ & ?).
  - by rewrite fmap_app, <-(assoc (++)), Hpb, Hpa.
Qed.

(** C9: when the two solvers return partitions of the indices they are
    given, [_match] returns, and its triple is a partition: the track
    components of the matches followed by the unmatched tracks are the
    indices [0 .. len(self.tracks) - 1] in some order, each exactly once,
    and the detection components of the matches followed by the unmatched
    detections are the indices [0 .. len(detections) - 1], each exactly
    once. *)
Theorem C9_match_is_partition self detections :
  cascade_contract self detections → min_cost_contract self detections →
  ∃ matches unmatched_tracks unmatched_detections,
    _match self detections
      = Some (matches, unmatched_tracks, unmatched_detections) ∧
    matches.*1 ++ unmatched_tracks ≡ₚ seq 0 (length (tracks self)) ∧
    NoDup (matches.*1 ++ unmatched_tracks) ∧
    matches.*2 ++ unmatched_detections ≡ₚ seq 0 (length detections) ∧
    NoDup (matches.*2 ++ unmatched_detections).
Proof.
  intros Hca Hmc.
  destruct (match_partition _ _ Hca Hmc) as ([[m ut] ud] & Hm & Ht & Hd).
  simpl in *. exists m, ut, ud. split_and!; try done.
  - rewrite Ht. apply NoDup_seq.
  - rewrite Hd. apply NoDup_seq.
Qed.

(** The cost function of Stage A on the features and identities it reads. *)
Lemma gated_metric_Some self trks detections track_indices detection_indices
    fs ids :
  Forall2 (λ j f, ∃ d, detections !! j = Some d ∧ feature d = f)
    detection_indices fs →
  Forall2 (λ i id, ∃ t, trks !! i = Some t ∧ track_id t = id)
    track_indices ids →
  gated_metric self trks detections track_indices detection_indices
  = Some (gate_cost_matrix (kf self) (distance (metric self) fs ids)
            trks detections track_indices detection_indices).
Proof.
  intros Hfs Hids. unfold gated_metric.
  assert (mapM (λ j, feature <$> detections !! j) detection_indices = Some fs)
    as ->.
  { apply mapM_Some. eapply Forall2_impl; [exact Hfs|].
    intros j f (d & -> & <-). done. }
  assert (mapM (λ i, track_id <$> trks !! i) track_indices = Some ids) as ->.
  { apply mapM_Some. eapply Forall2_impl; [exact Hids|].
    intros i id (t & -> & <-). done. }
  done.
Qed.

Lemma gated_metric_total self trks detections track_indices detection_indices :
  in_range trks track_indices → in_range detections detection_indices →
  is_Some (gated_metric self trks detections track_indices detection_indices).
Proof.
  intros Ht Hd. unfold gated_metric.
  destruct (mapM_is_Some_2 (λ j, feature <$> detections !! j) detection_indices)
    as [fs ->].
  { eapply Forall_impl; [exact Hd|]. intros j Hj. simpl.
    apply lookup_lt_is_Some in Hj as [d ->]. by eexists. }
  destruct (mapM_is_Some_2 (λ i, track_id <$> trks !! i) track_indices)
    as [ids ->].
  { eapply Forall_impl; [exact Ht|]. intros i Hi. simpl.
    apply lookup_lt_is_Some in Hi as [t ->]. by eexists. }
  by eexists.
Qed.

(** C1: when the solvers keep their contracts, [_match] returns the result
    merged from Stage A and from the one Stage B call made on the candidate
    list and on the detections Stage A left over.  The candidates are the
    not-confirmed indices followed by the confirmed indices that Stage A
    left unmatched and whose [time_since_update] is 1, and nothing else;
    what Stage B matches or leaves over is exactly that list.  A track that
    Stage A left unmatched with [time_since_update != 1] is confirmed, is
    not offered to Stage B, is in no match of Stage B or of the merged
    result, and is in the unmatched tracks that [_match] returns. *)
Theorem C1_stage_b_candidates self detections :
  cascade_contract self detections → min_cost_contract self detections →
  ∃ matches_a unmatched_tracks_a unmatched_detections_a candidates
    matches_b unmatched_tracks_b unmatched_detections_b
    matches unmatched_tracks unmatched_detections,
    stage_a self detections
      = Some (matches_a, unmatched_tracks_a, unmatched_detections_a) ∧
    iou_track_candidates self unmatched_tracks_a = Some candidates ∧
    stage_b self detections candidates unmatched_detections_a
      = Some (matches_b, unmatched_tracks_b, unmatched_detections_b) ∧
    _match self detections
      = Some (matches, unmatched_tracks, unmatched_detections) ∧
    matches = matches_a ++ matches_b ∧
    unmatched_tracks
      = elements (list_to_set (C := gset nat)
          (long_missed (tracks self) unmatched_tracks_a
             ++ unmatched_tracks_b)) ∧
    unmatched_detections = unmatched_detections_b ∧
    matches_b.*1 ++ unmatched_tracks_b ≡ₚ candidates ∧
    candidates
      = unconfirmed_tracks self ++ just_missed (tracks self) unmatched_tracks_a ∧
    (∀ k, k ∈ candidates ↔
       (∃ t, tracks self !! k = Some t ∧ state t ≠ Confirmed) ∨
       (k ∈ unmatched_tracks_a ∧
        ∃ t, tracks self !! k = Some t ∧ state t = Confirmed ∧
             time_since_update t = 1)) ∧
    (∀ k t, k ∈ unmatched_tracks_a → tracks self !! k = Some t →
       time_since_update t ≠ 1 →
       state t = Confirmed ∧ (k ∉ candidates) ∧ (k ∉ matches_b.*1) ∧
       (k ∉ matches.*1) ∧ k ∈ unmatched_tracks).
Proof.
  intros Hca Hmc.
  destruct (stages_run _ _ Hca Hmc)
    as ([[ma ua] uda] & [[mb ub] udb] & cand & [Ha Hpa Hc Hb Hpb Hm]).
  simpl in *.
  destruct (partitions_NoDup _ _ _ (NoDup_confirmed_tracks self)
              (NoDup_seq 0 (length detections)) Hpa)
    as (_ & _ & Hua & _ & _); simpl in *.
  assert (∀ k, k ∈ mb.*1 → k ∈ cand) as Hmb.
  { intros k Hk. destruct Hpb as [<- _]. apply elem_of_app. by left. }
  assert (∀ k t, k ∈ ua → tracks self !! k = Some t → state t = Confirmed)
    as Hconf.
  { intros k t Hk Ht. apply Hua in Hk as [Hk _].
    apply elem_of_confirmed_tracks in Hk as (t' & Hk' & ?). congruence. }
  assert (∀ k t, k ∈ ua → tracks self !! k = Some t →
            time_since_update t ≠ 1 → k ∉ cand) as Hout.
  { intros k t Hk Ht Hne. rewrite Hc, elem_of_app,
      elem_of_unconfirmed_tracks, elem_of_just_missed.
    intros [(t' & ? & ?)|[_ (t' & ? & ?)]].
    - specialize (Hconf k t Hk Ht). congruence.
    - congruence. }
  exists ma, ua, uda, cand, mb, ub, udb. eexists _, _, _.
  split_and!; [done| |done|exact Hm|done|done|done|apply Hpb|done| |].
  - rewrite Hc. apply iou_track_candidates_in_range, in_range_lookup.
    intros k Hk. apply Hua in Hk as [Hk _].
    apply elem_of_confirmed_tracks in Hk as (t & -> & _). eauto.
  - intros k. rewrite Hc, elem_of_app, elem_of_unconfirmed_tracks,
      elem_of_just_missed. split.
    + intros [?|[Hk (t & Ht & ?)]]; [by left|right].
      split; [done|]. exists t. eauto.
    + intros [?|[Hk (t & Ht & _ & ?)]]; [by left|right]. eauto.
  - intros k t Hk Ht Hne. split_and!.
    + by eapply Hconf.
    + by eapply Hout.
    + intros Hin%Hmb. by eapply Hout.
    + rewrite fmap_app, elem_of_app. intros [Hin|Hin].
      * by apply (Hua k Hk).
      * apply Hmb in Hin. by eapply Hout.
    + apply elem_of_elements, elem_of_list_to_set, elem_of_app. left.
      apply elem_of_long_missed. eauto.
Qed.

(** C2: whenever [_match] returns, Stage A was the one call of the cascade
    solver with the closure [gated_metric], the metric's threshold,
    [max_age], the tracks, the detections and the indices of the confirmed
    tracks, and its matches open the merged list of matches; those indices
    are the positions of the tracks in state Confirmed, each once, so a
    track in another state is not among them and, when the cascade returns
    a partition, is in no Stage A match; and [gated_metric] is the gate
    applied to the appearance distance between the features of the chosen
    detections and the identities of the chosen tracks. *)
Theorem C2_stage_a_confirmed_only self detections r :
  _match self detections = Some r →
  ∃ matches_a unmatched_tracks_a unmatched_detections_a matches_b,
    matching_cascade (gated_metric self) (matching_threshold (metric self))
      (max_age self) (tracks self) detections (confirmed_tracks self)
      = Some (matches_a, unmatched_tracks_a, unmatched_detections_a) ∧
    r.1.1 = matches_a ++ matches_b ∧
    NoDup (confirmed_tracks self) ∧
    (∀ i, i ∈ confirmed_tracks self ↔
       ∃ t, tracks self !! i = Some t ∧ state t = Confirmed) ∧
    (∀ i t, tracks self !! i = Some t → state t ≠ Confirmed →
       (i ∉ confirmed_tracks self) ∧
       (partitions (confirmed_tracks self) (seq 0 (length detections))
          (matches_a, unmatched_tracks_a, unmatched_detections_a) →
        i ∉ matches_a.*1)) ∧
    (∀ trks dets track_indices detection_indices fs ids,
       Forall2 (λ j f, ∃ d, dets !! j = Some d ∧ feature d = f)
         detection_indices fs →
       Forall2 (λ i id, ∃ t, trks !! i = Some t ∧ track_id t = id)
         track_indices ids →
       gated_metric self trks dets track_indices detection_indices
       = Some (gate_cost_matrix (kf self) (distance (metric self) fs ids)
                 trks dets track_indices detection_indices)).
Proof.
  intros Hm.
  apply _match_Some in Hm as (ma & ua & uda & mb & ub & udb & Ha & _ & _ & ->).
  exists ma, ua, uda, mb. split_and!; [done|done|..].
  - apply NoDup_confirmed_tracks.
  - apply elem_of_confirmed_tracks.
  - intros i t Hi Hne.
    assert (i ∉ confirmed_tracks self) as Hnot.
    { intros (t' & ? & ?)%elem_of_confirmed_tracks. congruence. }
    split; [done|]. intros [Hp _] Hin. apply Hnot. rewrite <-Hp.
    apply elem_of_app. by left.
  - intros. by apply gated_metric_Some.
Qed.

(** C4: whenever [_match] returns, both stages returned, and the merged
    result is: the matches of Stage A followed by those of Stage B; the
    deduplicated union of the Stage A leftovers that were not passed on to
    Stage B with the Stage B leftovers, as unmatched tracks; and the
    detections Stage B left over, as unmatched detections. *)
Theorem C4_merged_result self detections
    matches unmatched_tracks unmatched_detections :
  _match self detections
    = Some (matches, unmatched_tracks, unmatched_detections) →
  ∃ matches_a unmatched_tracks_a unmatched_detections_a candidates
    matches_b unmatched_tracks_b unmatched_detections_b,
    stage_a self detections
      = Some (matches_a, unmatched_tracks_a, unmatched_detections_a) ∧
    iou_track_candidates self unmatched_tracks_a = Some candidates ∧
    stage_b self detections candidates unmatched_detections_a
      = Some (matches_b, unmatched_tracks_b, unmatched_detections_b) ∧
    matches = matches_a ++ matches_b ∧
    unmatched_tracks
      = elements (list_to_set (C := gset nat)
          (long_missed (tracks self) unmatched_tracks_a
             ++ unmatched_tracks_b)) ∧
    NoDup unmatched_tracks ∧
    (∀ k, k ∈ unmatched_tracks ↔
       (k ∈ unmatched_tracks_a ∧
        k ∉ just_missed (tracks self) unmatched_tracks_a) ∨
       k ∈ unmatched_tracks_b) ∧
    unmatched_detections = unmatched_detections_b.
Proof.
  intros Hm.
  apply _match_Some in Hm
    as (ma & ua & uda & mb & ub & udb & Ha & Hr & Hb & [= -> -> ->]).
  exists ma, ua, uda. eexists. exists mb, ub, udb.
  split_and!; [done|by apply iou_track_candidates_in_range|done..| | |done].
  - apply NoDup_elements.
  - intros k.
    rewrite elem_of_elements, elem_of_list_to_set, elem_of_app,
      elem_of_long_missed, elem_of_just_missed.
    split; (intros [[Hk Ht]|?]; [left|by right]); (split; [done|]).
    + intros [_ (t & ? & ?)]. destruct Ht as (t' & ? & ?). congruence.
    + destruct (proj1 (in_range_lookup _ _) Hr k Hk) as [t Hkt].
      exists t. split; [done|]. intros ?. apply Ht. eauto.
Qed.

End matching.

(** ** Applying the outcome of the matching *)

Section outcomes.
Context {Feature Box Mean Cov Cost Real M : Type}.
Context {KF : KalmanFilter Box Mean Cov}.
Context {NN : NearestNeighborDistanceMetric Feature Cost Real M}.
Context {LA : LinearAssignment Feature Box Mean Cov Cost Real}.
Context {IOU : IouMatching Feature Box Mean Cov Cost}.
Local Abbreviation Track := (Track Feature Mean Cov).
Local Abbreviation Detection := (Detection Feature Box).
Local Abbreviation Tracker := (Tracker Feature Box Mean Cov Real M).
Implicit Types (self : Tracker) (detections : list Detection).
Implicit Types (trks : list Track) (t : Track) (l : list nat) (k : nat).

Lemma same_but_tracks_refl self : same_but_tracks self self.
Proof. by repeat split. Qed.

Lemma same_but_tracks_trans self1 self2 self3 :
  same_but_tracks self1 self2 → same_but_tracks self2 self3 →
  same_but_tracks self1 self3.
Proof.
  intros (?&(?&?&?&?)&?&?) (?&(?&?&?&?)&?&?).
  repeat split; congruence.
Qed.

Lemma same_but_tracks_set self trks :
  length trks = length (tracks self) →
  same_but_tracks self (set_tracks self trks).
Proof. intros. by repeat split. Qed.

Lemma update_matched_Some detections self m self' :
  update_matched detections self m = Some self' ↔
  ∃ t d, tracks self !! m.1 = Some t ∧ detections !! m.2 = Some d ∧
         self' = set_tracks self
                   (<[m.1 := Track_update (kf self) t d]> (tracks self)).
Proof.
  destruct m as [i j]. unfold update_matched. simpl. split.
  - intros Hm. destruct (tracks self !! i) as [t|]; simpl in *; [|done].
    destruct (detections !! j) as [d|]; simpl in *; [|done].
    simplify_eq. eauto.
  - by intros (t & d & -> & -> & ->).
Qed.

Lemma update_missed_Some self k self' :
  update_missed self k = Some self' ↔
  ∃ t, tracks self !! k = Some t ∧
       self' = set_tracks self (<[k := mark_missed t]> (tracks self)).
Proof.
  unfold update_missed. split.
  - intros Hm. destruct (tracks self !! k) as [t|]; simpl in *; [|done].
    simplify_eq. eauto.
  - by intros (t & -> & ->).
Qed.

(** The loop over the matches: each matched track is updated with its
    detection, the others are left as they are. *)
Lemma matched_loop detections matches self self' :
  for_each (update_matched detections) matches self = Some self' →
  same_but_tracks self self' ∧
  (∀ i, i ∉ matches.*1 → tracks self' !! i = tracks self !! i) ∧
  (NoDup matches.*1 → ∀ i j, (i, j) ∈ matches →
     ∃ t d, tracks self !! i = Some t ∧ detections !! j = Some d ∧
            tracks self' !! i = Some (Track_update (kf self) t d)).
Proof.
  revert self. induction matches as [|[i j] matches IH]; intros self Hrun.
  - simpl in Hrun. simplify_eq. split_and!.
    + apply same_but_tracks_refl.
    + done.
    + intros _ i j Hin. by apply elem_of_nil in Hin.
  - apply for_each_cons_Some in Hrun as (s1 & Hm & Hrun).
    apply update_matched_Some in Hm as (t & d & Ht & Hd & ->). simpl in *.
    destruct (IH _ Hrun) as (Hsame & Hother & Hthis). simpl in *.
    assert (same_but_tracks self self') as Hsame'.
    { eapply same_but_tracks_trans; [|exact Hsame].
      apply same_but_tracks_set, length_insert. }
    split_and!; [done| |].
    + intros i' [Hne Hnot]%not_elem_of_cons.
      rewrite Hother by done. by apply list_lookup_insert_ne.
    + intros [Hfresh Hnd]%NoDup_cons i' j' [[= -> ->]|Hin]%elem_of_cons.
      * exists t, d. split_and!; [done..|].
        rewrite Hother by exact Hfresh. apply list_lookup_insert_eq.
        by eapply lookup_lt_Some.
      * destruct (Hthis Hnd i' j' Hin) as (t' & d' & Ht' & Hd' & Hres).
        assert (i' ≠ i) as Hne.
        { intros ->. apply Hfresh.
          by apply (list_elem_of_fmap_2 fst _ (i, j')). }
        rewrite list_lookup_insert_ne in Ht' by done. eauto.
Qed.

(** The loop over the unmatched tracks. *)
Lemma missed_loop unmatched_tracks self self' :
  for_each update_missed unmatched_tracks self = Some self' →
  same_but_tracks self self' ∧
  (∀ i, i ∉ unmatched_tracks → tracks self' !! i = tracks self !! i) ∧
  (NoDup unmatched_tracks → ∀ i, i ∈ unmatched_tracks →
     ∃ t, tracks self !! i = Some t ∧
          tracks self' !! i = Some (mark_missed t)).
Proof.
  revert self. induction unmatched_tracks as [|k l IH]; intros self Hrun.
  - simpl in Hrun. simplify_eq. split_and!.
    + apply same_but_tracks_refl.
    + done.
    + intros _ i Hin. by apply elem_of_nil in Hin.
  - apply for_each_cons_Some in Hrun as (s1 & Hm & Hrun).
    apply update_missed_Some in Hm as (t & Ht & ->). simpl in *.
    destruct (IH _ Hrun) as (Hsame & Hother & Hthis). simpl in *.
    assert (same_but_tracks self self') as Hsame'.
    { eapply same_but_tracks_trans; [|exact Hsame].
      apply same_but_tracks_set, length_insert. }
    split_and!; [done| |].
    + intros i' [Hne Hnot]%not_elem_of_cons.
      rewrite Hother by done. by apply list_lookup_insert_ne.
    + intros [Hfresh Hnd]%NoDup_cons i' [->|Hin]%elem_of_cons.
      * exists t. split; [done|].
        rewrite Hother by exact Hfresh. apply list_lookup_insert_eq.
        by eapply lookup_lt_Some.
      * destruct (Hthis Hnd i' Hin) as (t' & Ht' & Hres).
        assert (i' ≠ k) as Hne by (by intros ->).
        rewrite list_lookup_insert_ne in Ht' by done. eauto.
Qed.

Lemma track_id_predict (kf : KalmanFilter Box Mean Cov) t :
  track_id (Track_predict kf t) = track_id t.
Proof. unfold Track_predict. by destruct (kf_predict _ _). Qed.

Lemma track_id_update (kf : KalmanFilter Box Mean Cov) t (d : Detection) :
  track_id (Track_update kf t d) = track_id t.
Proof. unfold Track_update. by destruct (kf_update _ _ _). Qed.

Lemma features_update (kf : KalmanFilter Box Mean Cov) t (d : Detection) :
  features (Track_update kf t d) = features t ++ [feature d].
Proof. unfold Track_update. by destruct (kf_update _ _ _). Qed.

Lemma time_since_update_update (kf : KalmanFilter Box Mean Cov) t
    (d : Detection) :
  time_since_update (Track_update kf t d) = 0.
Proof. unfold Track_update. by destruct (kf_update _ _ _). Qed.

Lemma insert_same_id trks i t t' :
  trks !! i = Some t → track_id t' = track_id t →
  track_id <$> <[i := t']> trks = track_id <$> trks.
Proof.
  intros Hi Hid. rewrite list_fmap_insert, Hid.
  apply list_insert_id. by rewrite list_lookup_fmap, Hi.
Qed.

(** Neither loop over the old tracks touches an identity. *)
Lemma matched_loop_ids detections matches self self' :
  for_each (update_matched detections) matches self = Some self' →
  track_id <$> tracks self' = track_id <$> tracks self.
Proof.
  apply (for_each_invariant
           (λ s, track_id <$> tracks s = track_id <$> tracks self)); [|done].
  intros s m s' _ Hs (t & d & Ht & _ & ->)%update_matched_Some. simpl.
  rewrite <-Hs. apply (insert_same_id _ _ t); [done|]. apply track_id_update.
Qed.

Lemma missed_loop_ids unmatched_tracks self self' :
  for_each update_missed unmatched_tracks self = Some self' →
  track_id <$> tracks self' = track_id <$> tracks self.
Proof.
  apply (for_each_invariant
           (λ s, track_id <$> tracks s = track_id <$> tracks self)); [|done].
  intros s m s' _ Hs (t & Ht & ->)%update_missed_Some. simpl.
  rewrite <-Hs. by apply (insert_same_id _ _ t).
Qed.

(** [_initiate_track] appends one track, built from the detection and the
    current identity counter, and advances the counter by one. *)
Lemma _initiate_track_eq self (d : Detection) :
  _initiate_track self d
  = {| metric := metric self; max_iou_distance := max_iou_distance self;
       max_age := max_age self; n_init := n_init self; kf := kf self;
       tracks := tracks self ++ [new_track self (_next_id self) d];
       _next_id := _next_id self + 1 |}.
Proof.
  unfold _initiate_track, new_track.
  by destruct (kf_initiate (KalmanFilter := kf self) (to_xyah d)).
Qed.

Lemma initiate_all self (ds : list Detection) :
  let self' := foldl _initiate_track self ds in
  metric self' = metric self ∧ same_settings self self' ∧
  _next_id self' = _next_id self + Z.of_nat (length ds) ∧
  tracks self'
  = tracks self ++ imap (λ n d, new_track self (_next_id self + Z.of_nat n) d) ds.
Proof.
  revert self. induction ds as [|d ds IH]; intros self; simpl.
  - repeat split; [lia | by rewrite app_nil_r].
  - destruct (IH (_initiate_track self d)) as (Hm & (?&?&?&?) & Hn & Ht).
    rewrite _initiate_track_eq in *. simpl in *.
    split_and!; [done | by repeat split | lia |].
    rewrite Ht, <-(assoc (++)). simpl. do 2 f_equal.
    + f_equal. lia.
    + apply imap_ext. intros n d' _. simpl. unfold new_track. simpl.
      f_equal. lia.
Qed.

(** The loop over the unmatched detections. *)
Lemma initiated_loop detections unmatched_detections self self' :
  for_each (update_initiated detections) unmatched_detections self
    = Some self' ↔
  ∃ ds, Forall2 (λ j d, detections !! j = Some d) unmatched_detections ds ∧
        self' = foldl _initiate_track self ds.
Proof.
  revert self. induction unmatched_detections as [|j l IH]; intros self.
  - simpl. split.
    + intros [= <-]. exists []. by split; [constructor|].
    + intros (ds & Hds & ->). by apply Forall2_nil_inv_l in Hds as ->.
  - rewrite for_each_cons_Some. unfold update_initiated at 1. split.
    + intros (s1 & Hj & Hrun).
      destruct (detections !! j) as [d|] eqn:Hd; simpl in Hj; [|done].
      simplify_eq. apply IH in Hrun as (ds & Hds & ->).
      exists (d :: ds). by split; [constructor|].
    + intros (ds & Hds & ->).
      apply Forall2_cons_inv_l in Hds as (d & ds' & Hd & Hds & ->).
      exists (_initiate_track self d). rewrite Hd. split; [done|].
      apply IH. eauto.
Qed.

(** The three loops together. *)
Lemma apply_outcomes_Some self detections matches unmatched_tracks
    unmatched_detections self' :
  apply_outcomes self detections
    (matches, unmatched_tracks, unmatched_detections) = Some self' →
  ∃ self1 self2 ds,
    for_each (update_matched detections) matches self = Some self1 ∧
    for_each update_missed unmatched_tracks self1 = Some self2 ∧
    Forall2 (λ j d, detections !! j = Some d) unmatched_detections ds ∧
    same_but_tracks self self2 ∧
    track_id <$> tracks self2 = track_id <$> tracks self ∧
    metric self' = metric self ∧ same_settings self self' ∧
    _next_id self' = _next_id self + Z.of_nat (length ds) ∧
    tracks self'
    = tracks self2 ++ imap (λ n d, new_track self (_next_id self + Z.of_nat n) d) ds.
Proof.
  unfold apply_outcomes. intros Hrun.
  destruct (for_each (update_matched detections) matches self)
    as [s1|] eqn:H1; simpl in Hrun; [|done].
  destruct (for_each update_missed unmatched_tracks s1)
    as [s2|] eqn:H2; simpl in Hrun; [|done].
  apply initiated_loop in Hrun as (ds & Hds & ->).
  destruct (matched_loop _ _ _ _ H1) as (Hs1 & _).
  destruct (missed_loop _ _ _ H2) as (Hs2 & _).
  pose proof (same_but_tracks_trans _ _ _ Hs1 Hs2)
    as Hs12.
  pose proof Hs12 as (Hm & (?&?&?&?) & Hn & Hlen).
  destruct (initiate_all s2 ds) as (Hm' & (?&?&?&?) & Hn' & Ht').
  exists s1, s2, ds. split_and!; try done.
  - rewrite (missed_loop_ids _ _ _ H2). by eapply matched_loop_ids.
  - congruence.
  - repeat split; congruence.
  - congruence.
  - rewrite Ht'. f_equal. apply imap_ext. intros n d _. simpl.
    unfold new_track. congruence.
Qed.

(** The loops return when the indices they are given exist. *)
Lemma matched_loop_total detections matches self :
  in_range (tracks self) matches.*1 → in_range detections matches.*2 →
  is_Some (for_each (update_matched detections) matches self).
Proof.
  revert self. induction matches as [|[i j] matches IH]; intros self Ht Hd.
  - by eexists.
  - rewrite fmap_cons in Ht, Hd. simpl in Ht, Hd.
    apply Forall_cons in Ht as [Hi Ht]. apply Forall_cons in Hd as [Hj Hd].
    apply lookup_lt_is_Some in Hi as [t Hi].
    apply lookup_lt_is_Some in Hj as [d Hj].
    destruct (IH (set_tracks self
                    (<[i := Track_update (kf self) t d]> (tracks self))))
      as [s' Hs']; [|done|].
    { unfold in_range. simpl. by rewrite length_insert. }
    exists s'. apply for_each_cons_Some. eexists. split; [|exact Hs'].
    apply update_matched_Some. eauto.
Qed.

Lemma missed_loop_total unmatched_tracks self :
  in_range (tracks self) unmatched_tracks →
  is_Some (for_each update_missed unmatched_tracks self).
Proof.
  revert self. induction unmatched_tracks as [|i l IH]; intros self Ht.
  - by eexists.
  - apply Forall_cons in Ht as [Hi Ht].
    apply lookup_lt_is_Some in Hi as [t Hi].
    destruct (IH (set_tracks self (<[i := mark_missed t]> (tracks self))))
      as [s' Hs'].
    { unfold in_range. simpl. by rewrite length_insert. }
    exists s'. apply for_each_cons_Some. eexists. split; [|exact Hs'].
    apply update_missed_Some. eauto.
Qed.

Lemma in_range_Forall2 {A} (xs : list A) l :
  in_range xs l → ∃ ys, Forall2 (λ j y, xs !! j = Some y) l ys.
Proof.
  induction 1 as [|j l Hj _ [ys IH]]; [by exists []|].
  apply lookup_lt_is_Some in Hj as [y Hj]. exists (y :: ys). by constructor.
Qed.

Lemma apply_outcomes_total self detections r :
  partitions (seq 0 (length (tracks self))) (seq 0 (length detections)) r →
  is_Some (apply_outcomes self detections r).
Proof.
  destruct r as [[matches ut] ud]. intros [Hpt Hpd]. simpl in *.
  pose proof (in_range_seq (tracks self) _ Hpt) as [Hm Hut]%Forall_app.
  pose proof (in_range_seq detections _ Hpd) as [Hmd Hud]%Forall_app.
  unfold apply_outcomes.
  destruct (matched_loop_total detections matches self Hm Hmd) as [s1 H1].
  rewrite H1. simpl.
  destruct (matched_loop _ _ _ _ H1) as ((_&_&_&Hlen1) & _).
  destruct (missed_loop_total ut s1) as [s2 H2].
  { unfold in_range. by rewrite Hlen1. }
  rewrite H2. simpl.
  destruct (in_range_Forall2 _ _ Hud) as [ds Hds].
  eexists. apply initiated_loop. eauto.
Qed.

(** The loop that collects the features is the three comprehensions. *)
Lemma collect_fold trks fs ts seen :
  foldl collect_step (fs, ts, seen) trks
  = (fs ++ collected_features trks, ts ++ collected_targets trks,
     seen ++ (handed_over <$> trks)).
Proof.
  unfold collected_features, collected_targets.
  revert fs ts seen. induction trks as [|t trks IH]; intros fs ts seen.
  - simpl. by rewrite !app_nil_r.
  - rewrite fmap_cons. unfold handed_over at 1.
    simpl. destruct (is_confirmed t) eqn:Hc; simpl.
    + rewrite IH, !filter_cons_True, !bind_cons, <-!(assoc (++))
        by (by rewrite Hc). done.
    + rewrite IH, !filter_cons_False, <-!(assoc (++))
        by (rewrite Hc; by intros []). done.
Qed.

Lemma refresh_gallery_eq self :
  refresh_gallery self
  = {| metric := partial_fit (metric self)
         (collected_features (tracks self)) (collected_targets (tracks self))
         (track_id <$> filter (λ t, is_confirmed t) (tracks self));
       max_iou_distance := max_iou_distance self;
       max_age := max_age self; n_init := n_init self; kf := kf self;
       tracks := handed_over <$> tracks self;
       _next_id := _next_id self |}.
Proof. unfold refresh_gallery. by rewrite collect_fold. Qed.

Lemma is_confirmed_handed_over t :
  is_confirmed (handed_over t) = is_confirmed t.
Proof. unfold handed_over. by destruct (is_confirmed t) eqn:?. Qed.

Lemma is_deleted_handed_over t : is_deleted (handed_over t) = is_deleted t.
Proof. unfold handed_over. by destruct (is_confirmed t). Qed.

Lemma track_id_handed_over t : track_id (handed_over t) = track_id t.
Proof. unfold handed_over. by destruct (is_confirmed t). Qed.

Lemma flushed_handed_over trks : flushed (handed_over <$> trks).
Proof.
  apply Forall_fmap, Forall_forall. intros t _. simpl.
  unfold handed_over. destruct (is_confirmed t) eqn:Hc; [done|].
  by rewrite Hc.
Qed.

(** [update] is the matching, the three loops, the pruning and the refresh
    of the gallery, and nothing else. *)
Lemma update_Some self detections self' :
  update self detections = Some self' ↔
  ∃ r self1, _match self detections = Some r ∧
             apply_outcomes self detections r = Some self1 ∧
             self' = refresh_gallery (prune self1).
Proof.
  unfold update. split.
  - intros Hu.
    destruct (_match self detections) as [r|] eqn:Hm; simpl in Hu; [|done].
    destruct (apply_outcomes self detections r) as [s1|] eqn:Ha;
      simpl in Hu; [|done].
    injection Hu as <-. by exists r, s1.
  - intros (r & s1 & -> & Ha & ->). simpl. by rewrite Ha.
Qed.

(** C3: when the solvers keep their contracts, [update] returns, and
    after its three loops: the track at each matched index is the old one
    updated (by [Track.update]) with the detection it was matched to; the
    track at each unmatched index is the old one after [mark_missed]; and
    for the [n]-th unmatched detection there is one new track after the old
    ones, built by the [Track] constructor from the state that the
    tracker's own filter, [self.kf], initiates on that detection's box,
    the identity [_next_id + n] and the detection's feature, in state
    Tentative; the identity counter has advanced by the number of
    unmatched detections. *)
Theorem C3_outcomes_applied self detections :
  cascade_contract self detections → min_cost_contract self detections →
  ∃ matches unmatched_tracks unmatched_detections self1,
    _match self detections
      = Some (matches, unmatched_tracks, unmatched_detections) ∧
    apply_outcomes self detections
      (matches, unmatched_tracks, unmatched_detections) = Some self1 ∧
    update self detections = Some (refresh_gallery (prune self1)) ∧
    (∀ i j, (i, j) ∈ matches →
       ∃ t d, tracks self !! i = Some t ∧ detections !! j = Some d ∧
              tracks self1 !! i = Some (Track_update (kf self) t d)) ∧
    (∀ i, i ∈ unmatched_tracks →
       ∃ t, tracks self !! i = Some t ∧
            tracks self1 !! i = Some (mark_missed t)) ∧
    (∀ n j, unmatched_detections !! n = Some j →
       ∃ d t, detections !! j = Some d ∧
              tracks self1 !! (length (tracks self) + n)%nat = Some t ∧
              t = Track_init
                    (kf_initiate (KalmanFilter := kf self) (to_xyah d)).1
                    (kf_initiate (KalmanFilter := kf self) (to_xyah d)).2
                    (_next_id self + Z.of_nat n)
                    (n_init self) (max_age self) (feature d) ∧
              state t = Tentative ∧ features t = [feature d] ∧
              track_id t = _next_id self + Z.of_nat n) ∧
    length (tracks self1)
      = (length (tracks self) + length unmatched_detections)%nat ∧
    _next_id self1 = _next_id self + Z.of_nat (length unmatched_detections).
Proof.
  intros Hca Hmc.
  destruct (match_partition _ _ Hca Hmc) as ([[m ut] ud] & Hm & Hp).
  destruct (apply_outcomes_total _ _ _ Hp) as [self1 Happ].
  destruct Hp as [Hpt Hpd]. simpl in *.
  destruct (apply_outcomes_Some _ _ _ _ _ _ Happ)
    as (s1 & s2 & ds & H1 & H2 & Hds & (_&_&_&Hlen) & _ & _ & _ & Hid & Htr).
  destruct (matched_loop _ _ _ _ H1) as ((_&(_&_&_&Hkf)&_&Hlen1) & Ho1 & Ht1).
  destruct (missed_loop _ _ _ H2) as (_ & Ho2 & Ht2).
  assert (NoDup (m.*1 ++ ut)) as (Hndm & Hdisj & Hndu)%NoDup_app
    by (rewrite Hpt; apply NoDup_seq).
  pose proof (Forall2_length _ _ _ Hds) as Hlends.
  exists m, ut, ud, self1. split_and!; [done|done| | | | | |].
  - apply update_Some. by exists (m, ut, ud), self1.
  - intros i j Hij. destruct (Ht1 Hndm i j Hij) as (t & d & Hi & Hj & Hres).
    exists t, d. split_and!; [done..|].
    rewrite Htr. apply lookup_app_l_Some. rewrite Ho2; [done|].
    apply Hdisj. by apply (list_elem_of_fmap_2 fst _ (i, j)).
  - intros i Hi. destruct (Ht2 Hndu i Hi) as (t & Hit & Hres).
    exists t. split.
    + rewrite <-Ho1; [done|]. intros Hin. by apply (Hdisj i).
    + rewrite Htr. by apply lookup_app_l_Some.
  - intros n j Hn.
    destruct (Forall2_lookup_l _ _ _ _ _ Hds Hn) as (d & Hdn & Hd).
    exists d, (new_track self (_next_id self + Z.of_nat n) d).
    split_and!; [done| |done..].
    rewrite Htr, <-Hlen, lookup_app_r by lia.
    replace (length (tracks s2) + n - length (tracks s2))%nat with n by lia.
    by rewrite list_lookup_imap, Hdn.
  - rewrite Htr, length_app, length_imap. lia.
  - rewrite Hid. by rewrite Hlends.
Qed.

(** C5: whenever [update] returns, the active track set it leaves holds no
    deleted track: it is the list of tracks that stood after the three
    loops, without those in state Deleted, in the same order, each survivor
    kept; the refresh of the gallery runs on that pruned list and changes
    no state. *)
Theorem C5_no_deleted_track_left self detections self' :
  update self detections = Some self' →
  ∃ r self1,
    _match self detections = Some r ∧
    apply_outcomes self detections r = Some self1 ∧
    self' = refresh_gallery (prune self1) ∧
    tracks (prune self1) = filter (λ t, ¬ is_deleted t) (tracks self1) ∧
    tracks self' = handed_over <$> tracks (prune self1) ∧
    Forall (λ t, is_deleted t = false) (tracks self') ∧
    track_id <$> tracks self' `sublist_of` track_id <$> tracks self1 ∧
    (∀ t, t ∈ tracks self1 → is_deleted t = false →
          handed_over t ∈ tracks self').
Proof.
  intros Hu. apply update_Some in Hu as (r & self1 & Hm & Ha & ->).
  exists r, self1. rewrite refresh_gallery_eq. simpl.
  split_and!; [done..| | |].
  - apply Forall_fmap, Forall_forall. intros t [Hd _]%list_elem_of_filter.
    simpl. rewrite is_deleted_handed_over. by destruct (is_deleted t).
  - rewrite <-list_fmap_compose.
    rewrite (list_fmap_ext (track_id ∘ handed_over) track_id _
               (λ _ t _, track_id_handed_over t)).
    apply fmap_sublist, sublist_filter.
  - intros t Ht Hd. apply list_elem_of_fmap_2, list_elem_of_filter.
    split; [|done]. rewrite Hd. by intros [].
Qed.

(** C7: whenever [update] returns, the metric it leaves is the old one
    after one [partial_fit] whose arguments are, for the pruned track list:
    the feature lists of the confirmed tracks, concatenated in order; for
    each of these features the identity of its track; and the identities of
    all confirmed tracks.  Afterwards the feature list of every confirmed
    track is empty, and the confirmed identities are those passed. *)
Theorem C7_gallery_refresh self detections self' :
  update self detections = Some self' →
  ∃ r self1,
    _match self detections = Some r ∧
    apply_outcomes self detections r = Some self1 ∧
    let pruned := tracks (prune self1) in
    let confirmed := filter (λ t, is_confirmed t) pruned in
    metric self'
      = partial_fit (metric self) (collected_features pruned)
          (collected_targets pruned) (track_id <$> confirmed) ∧
    collected_features pruned = confirmed ≫= features ∧
    zip (collected_features pruned) (collected_targets pruned)
      = confirmed ≫= (λ t, (λ f, (f, track_id t)) <$> features t) ∧
    length (collected_targets pruned) = length (collected_features pruned) ∧
    track_id <$> filter (λ t, is_confirmed t) (tracks self')
      = track_id <$> confirmed ∧
    Forall (λ t, is_confirmed t → features t = []) (tracks self').
Proof.
  intros Hu. apply update_Some in Hu as (r & self1 & Hm & Ha & ->).
  exists r, self1. rewrite refresh_gallery_eq. simpl.
  assert (metric self1 = metric self) as ->.
  { destruct r as [[m ut] ud].
    by destruct (apply_outcomes_Some _ _ _ _ _ _ Ha)
      as (_ & _ & _ & _ & _ & _ & _ & _ & ? & _). }
  unfold collected_features, collected_targets.
  set (confirmed := filter (λ t, is_confirmed t)
                      (filter (λ t, ¬ is_deleted t) (tracks self1))).
  split_and!; [done..| | | |].
  - induction confirmed as [|t l IH]; [done|].
    rewrite !bind_cons, zip_with_app, IH by (by rewrite length_fmap).
    f_equal. clear. induction (features t) as [|f fs IH]; [done|].
    simpl. f_equal. exact IH.
  - induction confirmed as [|t l IH]; [done|].
    rewrite !bind_cons, !length_app, IH. by rewrite length_fmap.
  - subst confirmed.
    induction (filter (λ t, ¬ is_deleted t) (tracks self1)) as [|t l IH];
      [done|].
    rewrite fmap_cons. destruct (is_confirmed t) eqn:Hc.
    + rewrite !filter_cons_True, !fmap_cons, IH, track_id_handed_over
        by (by rewrite ?is_confirmed_handed_over, Hc). done.
    + rewrite !filter_cons_False
        by (rewrite ?is_confirmed_handed_over, Hc; by intros []). done.
  - apply flushed_handed_over.
Qed.

End outcomes.

(** ** Sessions *)

Section sorted.
Context {A : Type} (R : relation A).

Lemma sublist_Forall (P : A → Prop) l1 l2 :
  l1 `sublist_of` l2 → Forall P l2 → Forall P l1.
Proof.
  induction 1 as [|x l1 l2 _ IH|x l1 l2 _ IH]; intros Hall; [done|..].
  - apply Forall_cons in Hall as [??]. constructor; auto.
  - apply Forall_cons in Hall as [??]. auto.
Qed.

Lemma sublist_elem_of (l1 l2 : list A) x :
  l1 `sublist_of` l2 → x ∈ l1 → x ∈ l2.
Proof.
  intros Hsub Hx. apply (proj1 (Forall_forall (λ y, y ∈ l2) l1)); [|done].
  eapply sublist_Forall; [done|]. by apply Forall_forall.
Qed.

Lemma sublist_StronglySorted l1 l2 :
  l1 `sublist_of` l2 → StronglySorted R l2 → StronglySorted R l1.
Proof.
  induction 1 as [|x l1 l2 Hsub IH|x l1 l2 _ IH]; intros Hs; [done|..].
  - apply StronglySorted_inv in Hs as [Hs Hx]. constructor; [auto|].
    by eapply sublist_Forall.
  - apply StronglySorted_inv in Hs as [Hs _]. auto.
Qed.

End sorted.

Lemma StronglySorted_seq a n : StronglySorted lt (seq a n).
Proof.
  revert a. induction n as [|n IH]; intros a; simpl; constructor; [done|].
  apply Forall_seq. lia.
Qed.

Lemma StronglySorted_seqZ m n : StronglySorted Z.lt (seqZ m n).
Proof.
  unfold seqZ.
  apply StronglySorted_fmap with (R1 := lt); [|apply StronglySorted_seq].
  intros i j Hij. simpl. lia.
Qed.

Section sessions.
Context {Feature Box Mean Cov Cost Real M : Type}.
Context {KF : KalmanFilter Box Mean Cov}.
Context {NN : NearestNeighborDistanceMetric Feature Cost Real M}.
Context {LA : LinearAssignment Feature Box Mean Cov Cost Real}.
Context {IOU : IouMatching Feature Box Mean Cov Cost}.
Local Abbreviation Track := (Track Feature Mean Cov).
Local Abbreviation Detection := (Detection Feature Box).
Local Abbreviation Tracker := (Tracker Feature Box Mean Cov Real M).
Implicit Types (self : Tracker) (detections : list Detection).
Implicit Types (trks : list Track) (t : Track) (l : list nat) (k : nat).
Implicit Types (c : Call Feature Box) (calls : list (Call Feature Box)).

(** The identities of the tracks [_initiate_track] appends in one [update]
    are consecutive, from the counter upwards. *)
Lemma new_track_ids self m (ds : list Detection) :
  track_id <$> imap (λ n d, new_track self (m + Z.of_nat n) d) ds
  = seqZ m (Z.of_nat (length ds)).
Proof.
  apply list_eq. intros i.
  rewrite list_lookup_fmap, list_lookup_imap.
  destruct (ds !! i) as [d|] eqn:Hd; simpl.
  - rewrite lookup_seqZ_lt; [done|]. apply lookup_lt_Some in Hd. lia.
  - rewrite lookup_seqZ_ge; [done|]. apply lookup_ge_None in Hd. lia.
Qed.

Lemma predict_ids self :
  track_id <$> tracks (predict self) = track_id <$> tracks self.
Proof.
  unfold predict. simpl. rewrite <-list_fmap_compose.
  apply list_fmap_ext. intros i t _. apply track_id_predict.
Qed.

(** One call: the identities it assigns are the next values of the counter,
    and the active set keeps the identities it had, in order, less those of
    the pruned tracks, followed by the new ones. *)
Lemma call_ids self c self' :
  call self c = Some self' →
  _next_id self ≤ _next_id self' ∧
  track_id <$> created self c
    = seqZ (_next_id self) (_next_id self' - _next_id self) ∧
  track_id <$> tracks self'
    `sublist_of` (track_id <$> tracks self) ++ (track_id <$> created self c).
Proof.
  destruct c as [|detections]; simpl.
  - intros [= <-]. rewrite predict_ids, app_nil_r. simpl.
    by rewrite Z.sub_diag.
  - intros Hu. apply update_Some in Hu as (r & self1 & Hm & Ha & ->).
    rewrite Hm. simpl. rewrite Ha.
    destruct r as [[m ut] ud].
    destruct (apply_outcomes_Some _ _ _ _ _ _ Ha)
      as (s1 & s2 & ds & _ & _ & _ & (_&_&_&Hlen) & Hids & _ & _ & Hn & Htr).
    rewrite refresh_gallery_eq. simpl.
    rewrite Htr, drop_app_length', new_track_ids, Hn by done.
    split_and!; [lia | f_equal; lia |].
    rewrite <-list_fmap_compose.
    rewrite (list_fmap_ext (track_id ∘ handed_over) track_id _
               (λ _ t _, track_id_handed_over t)).
    rewrite <-Hids, <-(new_track_ids self), <-fmap_app.
    apply fmap_sublist, sublist_filter.
Qed.

(** A session started in a state whose identities are sorted and below the
    counter: the identities assigned are the values the counter went
    through. *)
Lemma run_ids self0 calls self :
  run self0 calls = Some self →
  StronglySorted Z.lt (track_id <$> tracks self0) →
  Forall (λ id, id < _next_id self0) (track_id <$> tracks self0) →
  _next_id self0 ≤ _next_id self ∧
  assigned_ids self0 calls
    = seqZ (_next_id self0) (_next_id self - _next_id self0) ∧
  StronglySorted Z.lt (track_id <$> tracks self) ∧
  Forall (λ id, id < _next_id self) (track_id <$> tracks self) ∧
  Forall (λ id, id ∈ track_id <$> tracks self0 ∨
                id ∈ assigned_ids self0 calls) (track_id <$> tracks self).
Proof.
  unfold run. revert self0.
  induction calls as [|c calls IH]; intros self0 Hrun Hsorted Hbelow.
  - simpl in Hrun. injection Hrun as <-. simpl.
    rewrite Z.sub_diag. split_and!; [lia|done..|].
    apply Forall_forall. auto.
  - apply for_each_cons_Some in Hrun as (s1 & Hc & Hrun).
    destruct (call_ids _ _ _ Hc) as (Hle & Hnew & Hsub).
    assert (StronglySorted Z.lt
              ((track_id <$> tracks self0) ++ (track_id <$> created self0 c)))
      as Hsorted'.
    { apply StronglySorted_app_2; [|done|].
      - intros x1 x2 Hx1 Hx2. rewrite Hnew in Hx2.
        apply elem_of_seqZ in Hx2.
        apply (proj1 (Forall_forall _ _) Hbelow) in Hx1. lia.
      - rewrite Hnew. apply StronglySorted_seqZ. }
    assert (Forall (λ id, id < _next_id s1)
              ((track_id <$> tracks self0) ++ (track_id <$> created self0 c)))
      as Hbelow'.
    { apply Forall_app. split.
      - eapply Forall_impl; [exact Hbelow|]. simpl. lia.
      - rewrite Hnew. apply Forall_seqZ. lia. }
    destruct (IH s1 Hrun) as (Hle' & Hass & Hs & Hb & Hfrom).
    { by eapply sublist_StronglySorted. }
    { by eapply sublist_Forall. }
    simpl. rewrite Hc, Hass, Hnew.
    split_and!; [lia| |done|done|].
    + replace (_next_id self - _next_id self0)
        with ((_next_id s1 - _next_id self0) + (_next_id self - _next_id s1))
        by lia.
      rewrite seqZ_app by lia. do 2 f_equal. lia.
    + eapply Forall_impl; [exact Hfrom|]. simpl. intros id [Hid|Hid].
      * assert (id ∈ (track_id <$> tracks self0)
                       ++ (track_id <$> created self0 c)) as Hin.
        { by eapply sublist_elem_of. }
        rewrite Hnew in Hin. apply elem_of_app in Hin as [?|?]; [by left|].
        right. apply elem_of_app. by left.
      * right. apply elem_of_app. right. by rewrite <-Hass.
Qed.

(** C6: in a session on a fresh tracker, the identities assigned, in the
    order the tracks were created, are 1, 2, 3, ...: each is greater than
    all assigned before it and none is used twice.  The active tracks carry
    assigned identities, in increasing order.  A further call gives its
    new tracks identities greater than all assigned so far, and leaves the
    identities of the tracks it keeps as they were: [predict] and the loops
    of [update] change no identity, and pruning only removes tracks. *)
Theorem C6_identities_increase (metric0 : M) (max_iou : Real)
    (max_age0 n_init0 : Z) calls self :
  run (Tracker_init metric0 max_iou max_age0 n_init0) calls = Some self →
  let assigned :=
    assigned_ids (Tracker_init metric0 max_iou max_age0 n_init0) calls in
  assigned = seqZ 1 (_next_id self - 1) ∧
  StronglySorted Z.lt assigned ∧ NoDup assigned ∧
  StronglySorted Z.lt (track_id <$> tracks self) ∧
  (∀ t, t ∈ tracks self → track_id t ∈ assigned) ∧
  (∀ c self', call self c = Some self' →
     Forall (λ id, Forall (λ old, old < id) assigned)
       (track_id <$> created self c) ∧
     track_id <$> tracks self'
       `sublist_of` (track_id <$> tracks self)
                      ++ (track_id <$> created self c)) ∧
  track_id <$> tracks (predict self) = track_id <$> tracks self ∧
  (∀ detections r self1,
     _match self detections = Some r →
     apply_outcomes self detections r = Some self1 →
     track_id <$> take (length (tracks self)) (tracks self1)
     = track_id <$> tracks self).
Proof.
  intros Hrun.
  destruct (run_ids _ _ _ Hrun) as (Hle & Hass & Hsorted & Hbelow & Hfrom);
    [constructor..|]. simpl in *.
  rewrite Hass. split_and!.
  - done.
  - apply StronglySorted_seqZ.
  - apply NoDup_seqZ.
  - done.
  - intros t Ht. rewrite <-Hass.
    apply (list_elem_of_fmap_2 track_id) in Ht.
    apply (proj1 (Forall_forall _ _) Hfrom) in Ht as [Ht|Ht]; [|done].
    by apply elem_of_nil in Ht.
  - intros c self' Hc. destruct (call_ids _ _ _ Hc) as (_ & -> & Hsub).
    split; [|done]. apply Forall_seqZ. intros id Hid.
    apply Forall_seqZ. lia.
  - apply predict_ids.
  - intros detections [[m ut] ud] self1 _ Ha.
    destruct (apply_outcomes_Some _ _ _ _ _ _ Ha)
      as (s1 & s2 & ds & _ & _ & _ & (_&_&_&Hlen) & Hids & _ & _ & _ & ->).
    by rewrite take_app_length'.
Qed.

(** The feature lists of the confirmed tracks stay empty between two calls
    of [update]. *)
Lemma is_confirmed_predict (kf : KalmanFilter Box Mean Cov) t :
  is_confirmed (Track_predict kf t) = is_confirmed t.
Proof. unfold Track_predict. by destruct (kf_predict _ _). Qed.

Lemma features_predict (kf : KalmanFilter Box Mean Cov) t :
  features (Track_predict kf t) = features t.
Proof. unfold Track_predict. by destruct (kf_predict _ _). Qed.

Lemma predict_flushed self :
  flushed (tracks self) → flushed (tracks (predict self)).
Proof.
  unfold predict, flushed. simpl. rewrite Forall_fmap.
  intros H. eapply Forall_impl; [exact H|]. intros t Ht. simpl.
  by rewrite is_confirmed_predict, features_predict.
Qed.

Lemma update_flushed self detections self' :
  update self detections = Some self' → flushed (tracks self').
Proof.
  intros Hu. apply update_Some in Hu as (r & self1 & _ & _ & ->).
  rewrite refresh_gallery_eq. apply flushed_handed_over.
Qed.

Lemma run_flushed self0 calls self :
  run self0 calls = Some self → flushed (tracks self0) → flushed (tracks self).
Proof.
  intros Hrun H0. revert Hrun.
  apply (for_each_invariant (λ s, flushed (tracks s))); [|done].
  intros s [|detections] s' _ Hs; simpl.
  - intros [= <-]. by apply predict_flushed.
  - apply update_flushed.
Qed.

Lemma missed_loop_flushed unmatched_tracks self self' :
  for_each update_missed unmatched_tracks self = Some self' →
  flushed (tracks self) → flushed (tracks self').
Proof.
  intros Hrun H0. revert Hrun.
  apply (for_each_invariant (λ s, flushed (tracks s))); [|done].
  intros s i s' _ Hs (t & Ht & ->)%update_missed_Some. simpl.
  apply Forall_insert; [done|].
  pose proof (proj1 (Forall_lookup _ _) Hs i t Ht) as Hf. simpl in Hf.
  intros Hc. simpl. apply Hf. revert Hc.
  unfold is_confirmed, mark_missed. simpl.
  rewrite !bool_decide_spec. by destruct (state t).
Qed.

Lemma flushed_collected trks :
  flushed trks → collected_features trks = [] ∧ collected_targets trks = [].
Proof.
  unfold collected_features, collected_targets.
  induction 1 as [|t trks Ht _ [IH1 IH2]]; [done|].
  destruct (is_confirmed t) eqn:Hc.
  - assert (features t = []) as Hf by (by apply Ht; rewrite ?Hc).
    rewrite !filter_cons_True, !bind_cons, IH1, IH2, Hf
      by (simpl; by rewrite Hc).
    done.
  - rewrite !filter_cons_False by (simpl; rewrite Hc; by intros []). done.
Qed.

Lemma flushed_filter (P : Track → Prop) `{!∀ t, Decision (P t)} trks :
  flushed trks → flushed (filter P trks).
Proof. intros Hf. eapply sublist_Forall; [apply sublist_filter|done]. Qed.

(** Without detections, an [update] that returns has matched nothing and
    created nothing. *)
Lemma apply_outcomes_no_detections self r self1 :
  apply_outcomes self [] r = Some self1 →
  r.1.1 = [] ∧ r.2 = [] ∧
  for_each update_missed r.1.2 self = Some self1.
Proof.
  destruct r as [[m ut] ud]. intros Ha.
  destruct (apply_outcomes_Some _ _ _ _ _ _ Ha)
    as (s1 & s2 & ds & H1 & H2 & Hds & _ & _ & _ & _ & _ & _).
  assert (m = []) as ->.
  { destruct m as [|[i j] m]; [done|].
    apply for_each_cons_Some in H1 as (? & Hb & _).
    apply update_matched_Some in Hb as (? & ? & _ & Hj & _). done. }
  assert (ud = []) as ->.
  { destruct ud as [|j ud]; [done|].
    apply Forall2_cons_inv_l in Hds as (? & ? & Hj & _). done. }
  simpl in *. injection H1 as <-.
  unfold apply_outcomes in Ha. simpl in Ha. rewrite H2 in Ha. simpl in Ha.
  injection Ha as <-. done.
Qed.

Lemma clear_features_flushed t : features t = [] → clear_features t = t.
Proof. destruct t. simpl. by intros ->. Qed.

Lemma handed_over_flushed trks : flushed trks → handed_over <$> trks = trks.
Proof.
  induction 1 as [|t trks Ht _ IH]; [done|].
  rewrite fmap_cons, IH. f_equal. unfold handed_over.
  destruct (is_confirmed t) eqn:Hc; [|done].
  apply clear_features_flushed, Ht. by rewrite ?Hc.
Qed.

Lemma filter_confirmed_handed_over trks :
  filter (λ t, is_confirmed t) (handed_over <$> trks)
  = handed_over <$> filter (λ t, is_confirmed t) trks.
Proof.
  induction trks as [|t trks IH]; [done|].
  rewrite fmap_cons. destruct (is_confirmed t) eqn:Hc.
  - rewrite !filter_cons_True, fmap_cons, IH
      by (cbv beta; by rewrite ?is_confirmed_handed_over, Hc). done.
  - rewrite !filter_cons_False
      by (cbv beta; rewrite ?is_confirmed_handed_over, Hc; by intros []). done.
Qed.

(** Tracks that are all Tentative go through pruning and refresh as they
    are, and contribute nothing to the gallery. *)
Lemma tentative_tracks trks :
  Forall (λ t, state t = Tentative) trks →
  filter (λ t, ¬ is_deleted t) trks = trks ∧
  filter (λ t, is_confirmed t) trks = [] ∧
  handed_over <$> trks = trks.
Proof.
  induction 1 as [|t trks Ht _ (IH1 & IH2 & IH3)]; [done|].
  assert (is_deleted t = false) as Hd
    by (unfold is_deleted; rewrite Ht; by apply bool_decide_eq_false_2).
  assert (is_confirmed t = false) as Hc
    by (unfold is_confirmed; rewrite Ht; by apply bool_decide_eq_false_2).
  rewrite filter_cons_True, filter_cons_False, fmap_cons, IH1, IH2, IH3
    by (cbv beta; rewrite ?Hd, ?Hc; by intros []).
  split_and!; [done..|]. f_equal. unfold handed_over. by rewrite Hc.
Qed.

(** C8, as the code has it: when the solvers keep their contracts, both
    empty cases return.  With no track, no detection is matched, and each
    becomes one new Tentative track; the metric gets one [partial_fit]
    with nothing in it.  With no detection, no track is matched, each is
    marked missed, no track is created, and, on a track set left by an
    earlier [update], [partial_fit] is called with no feature and no target
    but with the identities of the confirmed tracks that survive the
    pruning. *)
Theorem C8_empty_cases self detections :
  cascade_contract self detections → min_cost_contract self detections →
  (tracks self = [] →
   ∃ unmatched_detections ds self',
     _match self detections = Some ([], [], unmatched_detections) ∧
     unmatched_detections ≡ₚ seq 0 (length detections) ∧
     Forall2 (λ j d, detections !! j = Some d) unmatched_detections ds ∧
     update self detections = Some self' ∧
     tracks self'
       = imap (λ n d, new_track self (_next_id self + Z.of_nat n) d) ds ∧
     Forall (λ t, state t = Tentative) (tracks self') ∧
     length (tracks self') = length detections ∧
     _next_id self' = _next_id self + Z.of_nat (length detections) ∧
     metric self' = partial_fit (metric self) [] [] []) ∧
  (detections = [] → flushed (tracks self) →
   ∃ unmatched_tracks self',
     _match self detections = Some ([], unmatched_tracks, []) ∧
     unmatched_tracks ≡ₚ seq 0 (length (tracks self)) ∧
     update self detections = Some self' ∧
     tracks self'
       = filter (λ t, ¬ is_deleted t) (mark_missed <$> tracks self) ∧
     _next_id self' = _next_id self ∧
     metric self'
       = partial_fit (metric self) [] []
           (track_id <$> filter (λ t, is_confirmed t) (tracks self'))).
Proof.
  intros Hca Hmc.
  destruct (match_partition _ _ Hca Hmc) as ([[m ut] ud] & Hm & Hp).
  destruct (apply_outcomes_total _ _ _ Hp) as [self1 Ha].
  assert (update self detections = Some (refresh_gallery (prune self1)))
    as Hu by (apply update_Some; by exists (m, ut, ud), self1).
  destruct Hp as [Hpt Hpd]. simpl in Hpt, Hpd. split.
  - intros Hnone. rewrite Hnone in Hpt. simpl in Hpt.
    apply Permutation_nil_r, app_eq_nil in Hpt as [->%fmap_nil_inv ->].
    simpl in Hpd.
    destruct (apply_outcomes_Some _ _ _ _ _ _ Ha)
      as (s1 & s2 & ds & [= <-] & [= <-] & Hds & _ & _ & Hmet & _ & Hn & Htr).
    rewrite Hnone in Htr. simpl in Htr.
    assert (Forall (λ t, state t = Tentative) (tracks self1)) as Htent.
    { rewrite Htr. apply Forall_lookup. intros i t.
      rewrite list_lookup_imap. destruct (ds !! i); by intros [= <-]. }
    destruct (tentative_tracks _ Htent) as (Hf1 & Hf2 & Hf3).
    assert (length ds = length detections) as Hlen.
    { rewrite <-(Forall2_length _ _ _ Hds), Hpd. apply length_seq. }
    exists ud, ds, (refresh_gallery (prune self1)).
    split_and!; [done..| | | | |]; rewrite refresh_gallery_eq; simpl;
      unfold collected_features, collected_targets;
      rewrite ?Hf1, ?Hf2, ?Hf3; simpl.
    + done.
    + done.
    + by rewrite Htr, length_imap.
    + lia.
    + by rewrite Hmet.
  - intros -> Hfl. simpl in Hpd.
    apply Permutation_nil_r, app_eq_nil in Hpd as [->%fmap_nil_inv ->].
    simpl in Hpt.
    destruct (apply_outcomes_no_detections _ _ _ Ha) as (_ & _ & Hloop).
    simpl in Hloop.
    destruct (missed_loop _ _ _ Hloop) as ((Hmet&_&Hn&Hlen) & _ & Hmiss).
    assert (NoDup ut) as Hnd by (rewrite Hpt; apply NoDup_seq).
    assert (tracks self1 = mark_missed <$> tracks self) as Htr.
    { apply list_eq. intros i. rewrite list_lookup_fmap.
      destruct (tracks self !! i) as [t|] eqn:Hi; simpl.
      - destruct (Hmiss Hnd i) as (t' & Ht' & ->); [|congruence].
        rewrite Hpt. apply elem_of_seq. apply lookup_lt_Some in Hi. lia.
      - apply lookup_ge_None. apply lookup_ge_None in Hi. lia. }
    pose proof (missed_loop_flushed _ _ _ Hloop Hfl) as Hfl1.
    pose proof (flushed_filter (λ t, ¬ is_deleted t) _ Hfl1) as Hfl2.
    destruct (flushed_collected _ Hfl2) as [Hcf Hct].
    exists ut, (refresh_gallery (prune self1)).
    split_and!; [done..| | |]; rewrite refresh_gallery_eq; simpl;
      rewrite ?Hcf, ?Hct, ?(handed_over_flushed _ Hfl2), ?Hmet, <-?Htr; done.
Qed.

End sessions.

(** ** Counting the calls of [partial_fit] *)

Section recorded.
Context {Feature Box Mean Cov Cost Real : Type}.
Context {KF : KalmanFilter Box Mean Cov}.
Context {LA : LinearAssignment Feature Box Mean Cov Cost Real}.
Context {IOU : IouMatching Feature Box Mean Cov Cost}.
Context (threshold : PartialFitLog Feature → Real).
Context (dist : PartialFitLog Feature → list Feature → list Z → Cost).

(** C10: with a metric that logs its [partial_fit] calls, whatever its
    distances and threshold, every [update] that returns in a session on a
    fresh tracker adds exactly one entry to the log; its third component is
    the list of the identities confirmed after the update; and when no
    track is confirmed then, or when there was no detection, its features
    and targets are empty. *)
Theorem C10_partial_fit_once (log0 : PartialFitLog Feature) (max_iou : Real)
    (max_age0 n_init0 : Z) calls (self : Tracker Feature Box Mean Cov Real _)
    detections self' :
  run (NN := recording_metric threshold dist)
    (Tracker_init log0 max_iou max_age0 n_init0) calls = Some self →
  update (NN := recording_metric threshold dist) self detections
    = Some self' →
  ∃ features targets,
    metric self'
    = metric self ++
        [(features, targets,
          track_id <$> filter (λ t, is_confirmed t) (tracks self'))] ∧
    length (metric self') = S (length (metric self)) ∧
    (filter (λ t, is_confirmed t) (tracks self') = [] ∨ detections = [] →
     features = [] ∧ targets = []).
Proof.
  intros Hrun Hu.
  pose proof (run_flushed _ _ _ Hrun (Forall_nil_2 _)) as Hfl.
  apply update_Some in Hu as (r & self1 & Hm & Ha & ->).
  assert (metric self1 = metric self) as Hmet.
  { destruct r as [[m ut] ud].
    by destruct (apply_outcomes_Some _ _ _ _ _ _ Ha)
      as (_ & _ & _ & _ & _ & _ & _ & _ & ? & _). }
  rewrite refresh_gallery_eq. simpl.
  rewrite filter_confirmed_handed_over, <-list_fmap_compose.
  rewrite (list_fmap_ext (track_id ∘ handed_over) track_id _
             (λ _ t _, track_id_handed_over t)).
  eexists _, _. rewrite Hmet. split_and!; [done| |].
  - rewrite length_app. simpl. lia.
  - intros [Hnone| ->].
    + apply fmap_nil_inv in Hnone.
      unfold collected_features, collected_targets. by rewrite Hnone.
    + destruct (apply_outcomes_no_detections _ _ _ Ha) as (_ & _ & Hloop).
      apply flushed_collected, flushed_filter.
      by eapply missed_loop_flushed.
Qed.

End recorded.

(** ** The concrete world: the plain solvers keep the contracts *)

Lemma fst_zip_take {A B} (l : list A) (k : list B) :
  (zip l k).*1 = take (length k) l.
Proof.
  revert k. induction l as [|x l IH]; intros [|y k]; simpl; [done..|].
  f_equal. apply IH.
Qed.

Lemma snd_zip_take {A B} (l : list A) (k : list B) :
  (zip l k).*2 = take (length l) k.
Proof.
  revert k. induction l as [|x l IH]; intros [|y k]; simpl; [done..|].
  f_equal. apply IH.
Qed.

Lemma zip_partitions (track_indices detection_indices : list nat) :
  partitions track_indices detection_indices
    (zip track_indices detection_indices,
     drop (length detection_indices) track_indices,
     drop (length track_indices) detection_indices).
Proof.
  split; simpl.
  - by rewrite fst_zip_take, take_drop.
  - by rewrite snd_zip_take, take_drop.
Qed.

Section demo_solvers.
Context {M : Type} {NN : NearestNeighborDistanceMetric nat DemoCost nat M}.
Local Existing Instances demo_kf demo_la demo_iou.
Implicit Types (self : Tracker nat nat nat nat nat M).
Implicit Types (detections : list (Detection nat nat)).

Lemma demo_cascade_contract self detections :
  cascade_contract self detections.
Proof.
  intros track_indices _ Hr. simpl. unfold demo_cascade.
  destruct (gated_metric_total self (tracks self) detections track_indices
              (seq 0 (length detections)) Hr) as [c ->].
  { apply Forall_seq. lia. }
  simpl. eexists. split; [done|]. split; simpl.
  - by rewrite fst_zip_take, (assoc (++)), !take_drop.
  - by rewrite snd_zip_take, take_drop.
Qed.

Lemma demo_min_cost_contract self detections :
  min_cost_contract self detections.
Proof.
  intros track_indices detection_indices _ _ _ _.
  eexists. split; [done|]. apply zip_partitions.
Qed.

End demo_solvers.

(** ** The theorems at work on the concrete world *)

Section demo.
Local Existing Instances demo_kf demo_metric demo_la demo_iou.

Lemma C9_match_is_partition_witness :
  cascade_contract demo_self demo_detections ∧
  min_cost_contract demo_self demo_detections ∧
  ∃ matches unmatched_tracks unmatched_detections,
    _match demo_self demo_detections
      = Some (matches, unmatched_tracks, unmatched_detections) ∧
    matches.*1 ++ unmatched_tracks ≡ₚ [0; 1; 2; 3]%nat ∧
    matches.*2 ++ unmatched_detections ≡ₚ [0; 1; 2; 3]%nat.
Proof.
  split; [apply demo_cascade_contract|].
  split; [apply demo_min_cost_contract|].
  destruct (C9_match_is_partition demo_self demo_detections
              (demo_cascade_contract _ _) (demo_min_cost_contract _ _))
    as (m & ut & ud & Hm & Ht & _ & Hd & _).
  by exists m, ut, ud.
Defined.

Lemma C1_stage_b_candidates_witness :
  cascade_contract demo_self demo_detections ∧
  min_cost_contract demo_self demo_detections ∧
  ∃ matches_b unmatched_tracks_b unmatched_detections_b,
    stage_a demo_self demo_detections
      = Some ([(0, 0)]%nat, [2; 3]%nat, [1; 2; 3]%nat) ∧
    iou_track_candidates demo_self [2; 3]%nat = Some [1; 2]%nat ∧
    stage_b demo_self demo_detections [1; 2]%nat [1; 2; 3]%nat
      = Some (matches_b, unmatched_tracks_b, unmatched_detections_b) ∧
    _match demo_self demo_detections
      = Some ([(0, 0)]%nat ++ matches_b,
              elements (list_to_set (C := gset nat)
                          ([3%nat] ++ unmatched_tracks_b)),
              unmatched_detections_b) ∧
    (3%nat ∉ ([(0, 0)]%nat ++ matches_b).*1).
Proof.
  split; [apply demo_cascade_contract|].
  split; [apply demo_min_cost_contract|].
  destruct (C1_stage_b_candidates demo_self demo_detections
              (demo_cascade_contract _ _) (demo_min_cost_contract _ _))
    as (ma & ua & uda & cand & mb & ub & udb & m & ut & ud
        & Ha & Hc & Hb & Hm & -> & -> & -> & _ & _ & _ & Hlong).
  vm_compute in Ha. injection Ha as <- <- <-.
  vm_compute in Hc. injection Hc as <-.
  destruct (Hlong 3%nat (demo_track 4 Confirmed 3 []))
    as (_ & _ & _ & Hnot & _); [|reflexivity|done|].
  { by repeat constructor. }
  by exists mb, ub, udb.
Defined.

Lemma C2_stage_a_confirmed_only_witness :
  _match demo_self demo_detections
    = Some ([(0, 0); (1, 1); (2, 2)]%nat, [3%nat], [3%nat]) ∧
  ∃ matches_a unmatched_tracks_a unmatched_detections_a matches_b,
    matching_cascade (gated_metric demo_self)
      (matching_threshold (metric demo_self)) (max_age demo_self)
      (tracks demo_self) demo_detections (confirmed_tracks demo_self)
      = Some (matches_a, unmatched_tracks_a, unmatched_detections_a) ∧
    [(0, 0); (1, 1); (2, 2)]%nat = matches_a ++ matches_b ∧
    1%nat ∉ confirmed_tracks demo_self.
Proof.
  assert (_match demo_self demo_detections
          = Some ([(0, 0); (1, 1); (2, 2)]%nat, [3%nat], [3%nat])) as Hm
    by (vm_compute; reflexivity).
  split; [exact Hm|].
  destruct (C2_stage_a_confirmed_only demo_self demo_detections _ Hm)
    as (ma & ua & uda & mb & Hc & Hr & _ & _ & Hten & _).
  exists ma, ua, uda, mb. split_and!; [done..|].
  by apply (Hten 1%nat (demo_track 2 Tentative 1 [7%nat])).
Defined.

Lemma C4_merged_result_witness :
  _match demo_self demo_detections
    = Some ([(0, 0); (1, 1); (2, 2)]%nat, [3%nat], [3%nat]) ∧
  ∃ matches_a unmatched_tracks_a unmatched_detections_a
    matches_b unmatched_tracks_b unmatched_detections_b,
    stage_a demo_self demo_detections
      = Some (matches_a, unmatched_tracks_a, unmatched_detections_a) ∧
    stage_b demo_self demo_detections
      (unconfirmed_tracks demo_self
         ++ just_missed (tracks demo_self) unmatched_tracks_a)
      unmatched_detections_a
      = Some (matches_b, unmatched_tracks_b, unmatched_detections_b) ∧
    [(0, 0); (1, 1); (2, 2)]%nat = matches_a ++ matches_b ∧
    [3%nat] = unmatched_detections_b.
Proof.
  assert (_match demo_self demo_detections
          = Some ([(0, 0); (1, 1); (2, 2)]%nat, [3%nat], [3%nat])) as Hm
    by (vm_compute; reflexivity).
  split; [exact Hm|].
  destruct (C4_merged_result demo_self demo_detections _ _ _ Hm)
    as (ma & ua & uda & cand & mb & ub & udb
        & Ha & Hc & Hb & Hr & _ & _ & _ & Hd).
  exists ma, ua, uda, mb, ub, udb. split_and!; [done| |done..].
  rewrite iou_track_candidates_in_range in Hc.
  - by injection Hc as <-.
  - vm_compute in Ha. injection Ha as <- <- <-.
    repeat constructor.
Defined.

Lemma C3_outcomes_applied_witness :
  cascade_contract demo_shifted demo_detections ∧
  min_cost_contract demo_shifted demo_detections ∧
  ∃ self1,
    apply_outcomes demo_shifted demo_detections
      ([(0, 0); (1, 1); (2, 2)]%nat, [3%nat], [3%nat]) = Some self1 ∧
    tracks self1 !! 0%nat
      = Some (Track_update shifted_kf (demo_track 1 Confirmed 1 [])
                (mkDetection 20%nat 10%nat)) ∧
    tracks self1 !! 3%nat
      = Some (mark_missed (demo_track 4 Confirmed 3 [])) ∧
    tracks self1 !! 4%nat = Some (Track_init 123%nat 1%nat 5 3 70 13%nat) ∧
    length (tracks self1) = 5%nat ∧ _next_id self1 = 6.
Proof.
  split; [apply demo_cascade_contract|].
  split; [apply demo_min_cost_contract|].
  destruct (C3_outcomes_applied demo_shifted demo_detections
              (demo_cascade_contract _ _) (demo_min_cost_contract _ _))
    as (m & ut & ud & self1 & Hm & Ha & _ & Hmatch & Hmiss & Hnew
        & Hlen & Hn).
  vm_compute in Hm. injection Hm as <- <- <-.
  exists self1. split_and!; [done| | | |done..].
  - destruct (Hmatch 0%nat 0%nat) as (t & d & Ht & Hd & ->);
      [by repeat constructor|].
    injection Ht as <-. by injection Hd as <-.
  - destruct (Hmiss 3%nat) as (t & Ht & ->); [by repeat constructor|].
    by injection Ht as <-.
  - destruct (Hnew 0%nat 3%nat eq_refl) as (d & t & Hd & Ht & -> & _).
    injection Hd as <-. exact Ht.
Defined.

Lemma C5_no_deleted_track_left_witness :
  ∃ self', update demo_self demo_detections = Some self' ∧
           length (tracks self') = 5%nat ∧
           Forall (λ t, is_deleted t = false) (tracks self').
Proof.
  destruct (update demo_self demo_detections) as [self'|] eqn:Hu;
    [|by vm_compute in Hu].
  exists self'. split; [done|].
  destruct (C5_no_deleted_track_left demo_self demo_detections self' Hu)
    as (r & self1 & _ & _ & _ & _ & _ & Hall & _ & _).
  split; [|done]. clear Hall. vm_compute in Hu. by injection Hu as <-.
Defined.

Lemma C7_gallery_refresh_witness :
  ∃ self', update demo_self demo_detections = Some self' ∧
           metric self'
           = [([10; 7; 11; 12]%nat, [1; 2; 2; 3], [1; 2; 3; 4])] ∧
           Forall (λ t, is_confirmed t → features t = []) (tracks self').
Proof.
  destruct (update demo_self demo_detections) as [self'|] eqn:Hu;
    [|by vm_compute in Hu].
  exists self'. split; [done|].
  destruct (C7_gallery_refresh demo_self demo_detections self' Hu)
    as (r & self1 & _ & _ & _ & _ & _ & _ & _ & Hfl).
  split; [|done]. clear Hfl. vm_compute in Hu. by injection Hu as <-.
Defined.

Lemma C6_identities_increase_witness :
  ∃ self, run (Tracker_init ([] : PartialFitLog nat) 0%nat 70 1) demo_session
          = Some self ∧
          assigned_ids (Tracker_init ([] : PartialFitLog nat) 0%nat 70 1)
            demo_session = [1; 2; 3; 4] ∧
          StronglySorted Z.lt (track_id <$> tracks self).
Proof.
  destruct (run (Tracker_init ([] : PartialFitLog nat) 0%nat 70 1)
              demo_session) as [self|] eqn:Hrun; [|by vm_compute in Hrun].
  exists self. split; [done|].
  destruct (C6_identities_increase _ _ _ _ _ _ Hrun)
    as (Hass & _ & _ & Hsorted & _).
  split; [|done]. rewrite Hass.
  vm_compute in Hrun. by injection Hrun as <-.
Defined.

Lemma C10_partial_fit_once_witness :
  ∃ self self',
    run (Tracker_init ([] : PartialFitLog nat) 0%nat 70 1) demo_session
      = Some self ∧
    update self [] = Some self' ∧
    metric self' = metric self ++ [([], [], [1; 2])].
Proof.
  destruct (run (Tracker_init ([] : PartialFitLog nat) 0%nat 70 1)
              demo_session) as [self|] eqn:Hrun; [|by vm_compute in Hrun].
  destruct (update self []) as [self'|] eqn:Hu.
  2: { vm_compute in Hrun. injection Hrun as <-. by vm_compute in Hu. }
  exists self, self'. split_and!; [done..|].
  destruct (C10_partial_fit_once (λ _, 0%nat) (λ _, Dist) _ _ _ _ _ _ _ _
              Hrun Hu) as (fs & ts & -> & _ & Hempty).
  destruct Hempty as [-> ->]; [by right|].
  do 3 f_equal.
  vm_compute in Hrun. injection Hrun as <-.
  vm_compute in Hu. by injection Hu as <-.
Defined.

Lemma C8_empty_cases_witness :
  (cascade_contract fresh_shifted demo_detections ∧
   min_cost_contract fresh_shifted demo_detections ∧
   tracks fresh_shifted = [] ∧
   ∃ unmatched_detections self',
     _match fresh_shifted demo_detections
       = Some ([], [], unmatched_detections) ∧
     update fresh_shifted demo_detections = Some self' ∧
     Forall (λ t, state t = Tentative) (tracks self') ∧
     mean <$> tracks self' = [120; 121; 122; 123]%nat ∧
     length (tracks self') = 4%nat) ∧
  (cascade_contract demo_self [] ∧ min_cost_contract demo_self [] ∧
   flushed (tracks demo_self) ∧
   ∃ unmatched_tracks self',
     _match demo_self [] = Some ([], unmatched_tracks, []) ∧
     update demo_self [] = Some self' ∧
     _next_id self' = 5 ∧
     metric self' = [([], [], [1; 3; 4])]).
Proof.
  split.
  - split; [apply demo_cascade_contract|].
    split; [apply demo_min_cost_contract|]. split; [done|].
    destruct (C8_empty_cases fresh_shifted demo_detections
                (demo_cascade_contract _ _) (demo_min_cost_contract _ _))
      as [Hno_tracks _].
    destruct (Hno_tracks eq_refl)
      as (ud & ds & self' & Hm & _ & Hds & Hu & Htr & Htent & Hlen & _).
    exists ud, self'. split_and!; [done..| |done].
    rewrite Htr. vm_compute in Hm. injection Hm as <-.
    apply Forall2_cons_inv_l in Hds as (d0 & ds0 & [= <-] & Hds & ->).
    apply Forall2_cons_inv_l in Hds as (d1 & ds1 & [= <-] & Hds & ->).
    apply Forall2_cons_inv_l in Hds as (d2 & ds2 & [= <-] & Hds & ->).
    apply Forall2_cons_inv_l in Hds as (d3 & ds3 & [= <-] & Hds & ->).
    by apply Forall2_nil_inv_l in Hds as ->.
  - split; [apply demo_cascade_contract|].
    split; [apply demo_min_cost_contract|].
    assert (flushed (tracks demo_self)) as Hfl
      by (repeat constructor; by vm_compute).
    split; [done|].
    destruct (C8_empty_cases demo_self []
                (demo_cascade_contract _ _) (demo_min_cost_contract _ _))
      as [_ Hno_detections].
    destruct (Hno_detections eq_refl Hfl)
      as (ut & self' & Hm & _ & Hu & _ & Hn & Hmet).
    exists ut, self'. split_and!; [done..|].
    rewrite Hmet. vm_compute in Hu. by injection Hu as <-.
Defined.

End demo.

(** ** The gallery loses an identity on an [update] without detections *)

Section gallery_demo.
Local Existing Instances demo_kf gallery_metric demo_la demo_iou.

(** C8, as stated, fails: one confirmed track, identity 1, last updated 71
    frames ago with [max_age = 70], and a gallery that holds one feature
    for it.  [update([])] marks the track missed, which deletes it; it is
    pruned, [partial_fit] is called with no active identity, and the
    gallery of identity 1 is gone. *)
Lemma C8_counterexample :
  flushed (tracks (demo_tracker ({[1 := [7%nat]]} : gmap Z (list nat))
                     [lost_track] 2)) ∧
  ∃ self',
    update (demo_tracker ({[1 := [7%nat]]} : gmap Z (list nat))
              [lost_track] 2) [] = Some self' ∧
    tracks self' = [] ∧
    metric self' !! 1 = None ∧
    metric (demo_tracker ({[1 := [7%nat]]} : gmap Z (list nat))
              [lost_track] 2) !! 1 = Some [7%nat] ∧
    metric self'
    ≠ metric (demo_tracker ({[1 := [7%nat]]} : gmap Z (list nat))
                [lost_track] 2).
Proof.
  split; [repeat constructor|].
  destruct (update _ []) as [self'|] eqn:Hu; [|by vm_compute in Hu].
  exists self'. vm_compute in Hu. injection Hu as <-.
  split_and!; [done..|]. simpl. intros Heq.
  by apply (f_equal (λ g : gmap Z (list nat), g !! 1)) in Heq.
Qed.

End gallery_demo.

(** * Further properties of the tracker *)

Section further.
Context {Feature Box Mean Cov Cost Real M : Type}.
Context {KF : KalmanFilter Box Mean Cov}.
Context {NN : NearestNeighborDistanceMetric Feature Cost Real M}.
Context {LA : LinearAssignment Feature Box Mean Cov Cost Real}.
Context {IOU : IouMatching Feature Box Mean Cov Cost}.
Local Abbreviation Track := (Track Feature Mean Cov).
Local Abbreviation Detection := (Detection Feature Box).
Local Abbreviation Tracker := (Tracker Feature Box Mean Cov Real M).
Implicit Types (self : Tracker) (detections : list Detection).
Implicit Types (trks : list Track) (t : Track) (l : list nat) (k : nat).
Implicit Types (c : Call Feature Box) (calls : list (Call Feature Box)).

(** ** When [update] raises *)

Lemma matched_loop_in_range detections matches self self' :
  for_each (update_matched detections) matches self = Some self' →
  in_range (tracks self) matches.*1 ∧ in_range detections matches.*2.
Proof.
  revert self. induction matches as [|[i j] matches IH]; intros self Hrun.
  - split; constructor.
  - apply for_each_cons_Some in Hrun as (s1 & Hb & Hrun).
    apply update_matched_Some in Hb as (t & d & Ht & Hd & ->).
    destruct (IH _ Hrun) as [H1 H2]. unfold in_range in *.
    cbn [tracks set_tracks] in H1. rewrite length_insert in H1.
    rewrite !fmap_cons.
    split; (constructor; [by eapply lookup_lt_Some|done]).
Qed.

Lemma missed_loop_in_range unmatched_tracks self self' :
  for_each update_missed unmatched_tracks self = Some self' →
  in_range (tracks self) unmatched_tracks.
Proof.
  revert self. induction unmatched_tracks as [|i l IH]; intros self Hrun.
  - constructor.
  - apply for_each_cons_Some in Hrun as (s1 & Hb & Hrun).
    apply update_missed_Some in Hb as (t & Ht & ->).
    pose proof (IH _ Hrun) as H1. unfold in_range in *.
    cbn [tracks set_tracks] in H1. rewrite length_insert in H1.
    constructor; [by eapply lookup_lt_Some|done].
Qed.

Lemma Forall2_in_range {A} (xs : list A) l ys :
  Forall2 (λ j y, xs !! j = Some y) l ys → in_range xs l.
Proof.
  induction 1 as [|j y l ys Hj _ IH]; constructor; [|done].
  by eapply lookup_lt_Some.
Qed.

Lemma apply_outcomes_is_Some self detections matches unmatched_tracks
    unmatched_detections :
  is_Some (apply_outcomes self detections
             (matches, unmatched_tracks, unmatched_detections)) ↔
  in_range (tracks self) matches.*1 ∧ in_range detections matches.*2 ∧
  in_range (tracks self) unmatched_tracks ∧
  in_range detections unmatched_detections.
Proof.
  split.
  - intros [self' Ha].
    destruct (apply_outcomes_Some _ _ _ _ _ _ Ha)
      as (s1 & s2 & ds & H1 & H2 & Hds & _).
    destruct (matched_loop_in_range _ _ _ _ H1) as [Hm1 Hm2].
    destruct (matched_loop _ _ _ _ H1) as ((_&_&_&Hlen) & _).
    pose proof (missed_loop_in_range _ _ _ H2) as Hut.
    unfold in_range in Hut. rewrite Hlen in Hut.
    split_and!; [done..|]. by eapply Forall2_in_range.
  - intros (Hm1 & Hm2 & Hut & Hud). unfold apply_outcomes.
    destruct (matched_loop_total detections matches self Hm1 Hm2)
      as [s1 H1].
    rewrite H1. simpl.
    destruct (matched_loop _ _ _ _ H1) as ((_&_&_&Hlen) & _).
    destruct (missed_loop_total unmatched_tracks s1) as [s2 H2].
    { unfold in_range. by rewrite Hlen. }
    rewrite H2. simpl.
    destruct (in_range_Forall2 _ _ Hud) as [ds Hds].
    eexists. apply initiated_loop. eauto.
Qed.

(** X1: [update] returns exactly when [_match] returns and every index of
    its result is a position of the list it refers to: the track
    components of the matches and the unmatched tracks in [self.tracks],
    the detection components and the unmatched detections in
    [detections].  Otherwise one of [self.tracks[...]] and
    [detections[...]] raises. *)
Theorem X1_update_returns_iff self detections :
  is_Some (update self detections) ↔
  ∃ matches unmatched_tracks unmatched_detections,
    _match self detections
      = Some (matches, unmatched_tracks, unmatched_detections) ∧
    in_range (tracks self) matches.*1 ∧ in_range detections matches.*2 ∧
    in_range (tracks self) unmatched_tracks ∧
    in_range detections unmatched_detections.
Proof.
  split.
  - intros [self' Hu].
    apply update_Some in Hu as ([[m ut] ud] & self1 & Hm & Ha & _).
    exists m, ut, ud. split; [done|].
    apply apply_outcomes_is_Some. by eexists.
  - intros (m & ut & ud & Hm & Hr).
    apply apply_outcomes_is_Some in Hr as [self1 Ha].
    eexists. apply update_Some. by exists (m, ut, ud), self1.
Qed.

(** X2: if Stage A leaves over an index that is not a position of
    [self.tracks], [_match] raises, whatever Stage B would return: the
    comprehension that reads [self.tracks[k].time_since_update] fails
    first. *)
Theorem X2_match_raises_on_bad_leftover self detections
    matches_a unmatched_tracks_a unmatched_detections_a k :
  stage_a self detections
    = Some (matches_a, unmatched_tracks_a, unmatched_detections_a) →
  k ∈ unmatched_tracks_a → (length (tracks self) ≤ k)%nat →
  _match self detections = None ∧ update self detections = None.
Proof.
  intros Ha Hk Hlen.
  assert (_match self detections = None) as Hnone.
  { destruct (_match self detections) as [r|] eqn:Hm; [|done].
    apply _match_Some in Hm
      as (ma & ua & uda & mb & ub & udb & Ha' & Hr & _).
    rewrite Ha in Ha'. injection Ha' as <- <- <-.
    apply (proj1 (Forall_forall _ _) Hr) in Hk. lia. }
  split; [done|]. unfold update. by rewrite Hnone.
Qed.

(** X3: the cost function of Stage A returns exactly when every index it
    is given is in range; it then hands the metric one feature per
    detection index and one identity per track index. *)
Theorem X3_gated_metric_returns_iff self trks detections
    track_indices detection_indices :
  (is_Some (gated_metric self trks detections track_indices detection_indices)
   ↔ in_range trks track_indices ∧ in_range detections detection_indices) ∧
  (∀ cost_matrix,
     gated_metric self trks detections track_indices detection_indices
       = Some cost_matrix →
     ∃ fs ids,
       length fs = length detection_indices ∧
       length ids = length track_indices ∧
       (∀ n j, detection_indices !! n = Some j →
               fs !! n = feature <$> detections !! j) ∧
       (∀ n i, track_indices !! n = Some i →
               ids !! n = track_id <$> trks !! i) ∧
       cost_matrix
       = gate_cost_matrix (kf self) (distance (metric self) fs ids)
           trks detections track_indices detection_indices).
Proof.
  assert (∀ cost_matrix,
     gated_metric self trks detections track_indices detection_indices
       = Some cost_matrix →
     ∃ fs ids,
       Forall2 (λ j f, feature <$> detections !! j = Some f)
         detection_indices fs ∧
       Forall2 (λ i id, track_id <$> trks !! i = Some id) track_indices ids ∧
       cost_matrix
       = gate_cost_matrix (kf self) (distance (metric self) fs ids)
           trks detections track_indices detection_indices) as Hshape.
  { intros c. unfold gated_metric. intros Hc.
    destruct (mapM _ detection_indices) as [fs|] eqn:Hfs; simpl in Hc; [|done].
    destruct (mapM _ track_indices) as [ids|] eqn:Hids; simpl in Hc; [|done].
    apply mapM_Some in Hfs. apply mapM_Some in Hids.
    injection Hc as <-. by exists fs, ids. }
  split.
  - split; [|intros []; by apply gated_metric_total].
    intros [c Hc]. destruct (Hshape c Hc) as (fs & ids & Hfs & Hids & _).
    split.
    + apply in_range_lookup. intros i Hi.
      apply list_elem_of_lookup in Hi as [n Hn].
      destruct (Forall2_lookup_l _ _ _ _ _ Hids Hn) as (id & _ & Hid).
      destruct (trks !! i); [by eexists|done].
    + apply in_range_lookup. intros j Hj.
      apply list_elem_of_lookup in Hj as [n Hn].
      destruct (Forall2_lookup_l _ _ _ _ _ Hfs Hn) as (f & _ & Hf).
      destruct (detections !! j); [by eexists|done].
  - intros c Hc. destruct (Hshape c Hc) as (fs & ids & Hfs & Hids & ->).
    exists fs, ids. split_and!; [| | | |done].
    + symmetry. by eapply Forall2_length.
    + symmetry. by eapply Forall2_length.
    + intros n j Hn.
      destruct (Forall2_lookup_l _ _ _ _ _ Hfs Hn) as (f & -> & Hf). done.
    + intros n i Hn.
      destruct (Forall2_lookup_l _ _ _ _ _ Hids Hn) as (id & -> & Hid). done.
Qed.

(** ** The split of the track indices *)

Lemma StronglySorted_indices {A} (P : nat * A → Prop)
    `{!∀ x, Decision (P x)} (xs : list A) :
  StronglySorted lt (filter P (imap pair xs)).*1.
Proof.
  apply (sublist_StronglySorted _ _ (seq 0 (length xs)));
    [|apply StronglySorted_seq].
  rewrite <-fst_enumerate. by apply fmap_sublist, sublist_filter.
Qed.

(** X4: the two comprehensions at the head of [_match] split the positions
    of [self.tracks]: each position is in exactly one of
    [confirmed_tracks] and [unconfirmed_tracks], and both lists are in
    increasing order. *)
Theorem X4_confirmed_unconfirmed_split self :
  confirmed_tracks self ++ unconfirmed_tracks self
    ≡ₚ seq 0 (length (tracks self)) ∧
  StronglySorted lt (confirmed_tracks self) ∧
  StronglySorted lt (unconfirmed_tracks self) ∧
  (∀ i, (i < length (tracks self))%nat →
        (i ∈ confirmed_tracks self ∧ (i ∉ unconfirmed_tracks self)) ∨
        ((i ∉ confirmed_tracks self) ∧ i ∈ unconfirmed_tracks self)).
Proof.
  split_and!.
  - apply confirmed_unconfirmed.
  - apply StronglySorted_indices.
  - apply StronglySorted_indices.
  - intros i Hi. apply lookup_lt_is_Some in Hi as [t Hi].
    rewrite elem_of_confirmed_tracks, elem_of_unconfirmed_tracks.
    destruct (decide (state t = Confirmed)) as [Hc|Hc]; [left|right].
    + split; [eauto|]. intros (t' & ? & ?). congruence.
    + split; [|eauto]. intros (t' & ? & ?). congruence.
Qed.

(** ** What no call changes *)

Lemma same_settings_refl self : same_settings self self.
Proof. by repeat split. Qed.

Lemma same_settings_trans self1 self2 self3 :
  same_settings self1 self2 → same_settings self2 self3 →
  same_settings self1 self3.
Proof. intros (?&?&?&?) (?&?&?&?). repeat split; congruence. Qed.

Lemma call_settings self c self' :
  call self c = Some self' → same_settings self self'.
Proof.
  destruct c as [|detections]; simpl.
  - intros [= <-]. by repeat split.
  - intros Hu. apply update_Some in Hu as ([[m ut] ud] & self1 & _ & Ha & ->).
    destruct (apply_outcomes_Some _ _ _ _ _ _ Ha)
      as (_ & _ & _ & _ & _ & _ & _ & _ & _ & Hs & _).
    rewrite refresh_gallery_eq. exact Hs.
Qed.

(** X5: no call ever changes what [__init__] has set: after any session,
    [max_iou_distance], [max_age], [n_init] and the filter are those the
    session started with, and [predict] leaves the metric alone. *)
Theorem X5_settings_never_change self0 calls self :
  run self0 calls = Some self →
  max_iou_distance self = max_iou_distance self0 ∧
  max_age self = max_age self0 ∧ n_init self = n_init self0 ∧
  kf self = kf self0 ∧
  (count_updates calls = 0%nat → metric self = metric self0).
Proof.
  unfold run. revert self0. induction calls as [|c calls IH]; intros self0.
  - simpl. by intros [= <-].
  - intros Hrun. apply for_each_cons_Some in Hrun as (s1 & Hc & Hrun).
    destruct (call_settings _ _ _ Hc) as (?&?&?&?).
    destruct (IH _ Hrun) as (?&?&?&?&Hmet).
    split_and!; [congruence..|].
    destruct c as [|detections]; simpl; [|done].
    intros Hzero. rewrite (Hmet Hzero). simpl in Hc. by injection Hc as <-.
Qed.

(** ** Consecutive predictions *)

(** X6: [predict] changes nothing but the tracks, and keeps their number
    and order: after [n] calls in a row every track has gone through
    [Track.predict] [n] times, the metric, the settings and the identity
    counter are as before, and a tracker without tracks is left as it
    is. *)
Theorem X6_predict_iterated self n :
  tracks (Nat.iter n predict self)
    = Nat.iter n (Track_predict (kf self)) <$> tracks self ∧
  same_but_tracks self (Nat.iter n predict self) ∧
  track_id <$> tracks (Nat.iter n predict self) = track_id <$> tracks self ∧
  (tracks self = [] → Nat.iter n predict self = self).
Proof.
  assert (tracks (Nat.iter n predict self)
            = Nat.iter n (Track_predict (kf self)) <$> tracks self ∧
          same_but_tracks self (Nat.iter n predict self)) as [Htr Hsame].
  { induction n as [|n [IH1 IH2]].
    - simpl. split; [by rewrite list_fmap_id | apply same_but_tracks_refl].
    - change (Nat.iter (S n) predict self)
        with (predict (Nat.iter n predict self)).
      destruct IH2 as (Hm & (?&?&?&Hkf) & Hn & Hlen).
      assert (∀ s : Tracker,
                tracks (predict s) = Track_predict (kf s) <$> tracks s)
        as Hpredict by done.
      split.
      + rewrite Hpredict, IH1, Hkf, <-list_fmap_compose.
        by apply list_fmap_ext.
      + repeat split; try done. by rewrite Hpredict, length_fmap. }
  split_and!; [done|done| |].
  - rewrite Htr, <-list_fmap_compose. apply list_fmap_ext.
    intros i t _. unfold compose. clear. induction n as [|n IH]; [done|].
    by rewrite Nat.iter_succ, track_id_predict.
  - intros Hnil. destruct Hsame as (Hm & (?&?&?&?) & Hn & _).
    rewrite Hnil in Htr. simpl in Htr.
    destruct (Nat.iter n predict self), self. simpl in *. congruence.
Qed.

(** ** Counting matches, tracks and detections *)

(** X8: when the solvers keep their contracts, [update] accounts for every
    track and every detection once: the matches and the unmatched tracks
    are as many as the tracks, the matches and the unmatched detections as
    many as the detections, no track and no detection is matched twice,
    and the identity counter advances by the number of detections that
    were not matched. *)
Theorem X8_update_accounting self detections :
  cascade_contract self detections → min_cost_contract self detections →
  ∃ matches unmatched_tracks unmatched_detections self',
    _match self detections
      = Some (matches, unmatched_tracks, unmatched_detections) ∧
    update self detections = Some self' ∧
    (length matches + length unmatched_tracks)%nat = length (tracks self) ∧
    (length matches + length unmatched_detections)%nat = length detections ∧
    NoDup matches.*1 ∧ NoDup matches.*2 ∧
    _next_id self'
    = _next_id self + Z.of_nat (length detections - length matches) ∧
    (length (tracks self')
     ≤ length (tracks self) + (length detections - length matches))%nat.
Proof.
  intros Hca Hmc.
  destruct (match_partition _ _ Hca Hmc) as ([[m ut] ud] & Hm & Hp).
  destruct (apply_outcomes_total _ _ _ Hp) as [self1 Ha].
  destruct Hp as [Hpt Hpd]. simpl in Hpt, Hpd.
  destruct (apply_outcomes_Some _ _ _ _ _ _ Ha)
    as (s1 & s2 & ds & _ & _ & Hds & (_&_&_&Hlen) & _ & _ & _ & Hn & Htr).
  pose proof (Forall2_length _ _ _ Hds) as Hlends.
  pose proof (Permutation_length Hpt) as Hlt.
  pose proof (Permutation_length Hpd) as Hld.
  rewrite length_app, length_fmap, length_seq in Hlt, Hld.
  assert (NoDup (m.*1 ++ ut)) as (Hnd1 & _ & _)%NoDup_app
    by (rewrite Hpt; apply NoDup_seq).
  assert (NoDup (m.*2 ++ ud)) as (Hnd2 & _ & _)%NoDup_app
    by (rewrite Hpd; apply NoDup_seq).
  exists m, ut, ud, (refresh_gallery (prune self1)).
  split_and!; [done| |done..| |].
  - apply update_Some. by exists (m, ut, ud), self1.
  - rewrite refresh_gallery_eq. cbn [_next_id prune set_tracks].
    rewrite Hn. f_equal. lia.
  - rewrite refresh_gallery_eq. cbn [tracks prune set_tracks].
    rewrite length_fmap.
    etransitivity; [apply length_filter|].
    rewrite Htr, length_app, length_imap. lia.
Qed.

(** ** The order of the unmatched tracks does not matter *)

Lemma update_missed_comm self i j :
  update_missed self i ≫= (λ s, update_missed s j)
  = update_missed self j ≫= (λ s, update_missed s i).
Proof.
  destruct (decide (i = j)) as [->|Hne]; [done|].
  unfold update_missed.
  destruct (tracks self !! i) as [ti|] eqn:Hi;
    destruct (tracks self !! j) as [tj|] eqn:Hj; simpl.
  - rewrite !list_lookup_insert_ne, Hi, Hj by done. simpl.
    unfold set_tracks. simpl. do 2 f_equal.
    by apply list_insert_insert_ne.
  - by rewrite list_lookup_insert_ne, Hj by done.
  - by rewrite list_lookup_insert_ne, Hi by done.
  - done.
Qed.

Lemma missed_loop_Permutation l1 l2 self :
  l1 ≡ₚ l2 → for_each update_missed l1 self = for_each update_missed l2 self.
Proof.
  intros Hp. revert self.
  induction Hp as [|i l1 l2 _ IH|i j l|l1 l2 l3 _ IH1 _ IH2]; intros self.
  - done.
  - simpl. destruct (update_missed self i); simpl; [apply IH|done].
  - change (for_each update_missed (j :: i :: l) self)
      with (update_missed self j ≫= (λ s, update_missed s i
              ≫= for_each update_missed l)).
    change (for_each update_missed (i :: j :: l) self)
      with (update_missed self i ≫= (λ s, update_missed s j
              ≫= for_each update_missed l)).
    pose proof (update_missed_comm self i j) as Hcomm.
    destruct (update_missed self i) as [si|];
      destruct (update_missed self j) as [sj|]; simpl in *.
    + destruct (update_missed si j) as [sij|];
        destruct (update_missed sj i) as [sji|]; simpl in *; congruence.
    + by destruct (update_missed si j).
    + by destruct (update_missed sj i).
    + done.
  - by rewrite IH1, IH2.
Qed.

(** X9: the loop that marks the unmatched tracks as missed gives the same
    tracker in whatever order it visits them, so the order in which
    [list(set(...))] lists the unmatched tracks has no effect on what
    [update] does with a matching result. *)
Theorem X9_unmatched_order_irrelevant self detections matches
    unmatched_tracks unmatched_tracks' unmatched_detections :
  unmatched_tracks ≡ₚ unmatched_tracks' →
  apply_outcomes self detections
    (matches, unmatched_tracks, unmatched_detections)
  = apply_outcomes self detections
      (matches, unmatched_tracks', unmatched_detections).
Proof.
  intros Hp. unfold apply_outcomes.
  destruct (for_each (update_matched detections) matches self) as [s1|];
    simpl; [|done].
  by rewrite (missed_loop_Permutation _ _ s1 Hp).
Qed.

End further.

Section further_recorded.
Context {Feature Box Mean Cov Cost Real : Type}.
Context {KF : KalmanFilter Box Mean Cov}.
Context {LA : LinearAssignment Feature Box Mean Cov Cost Real}.
Context {IOU : IouMatching Feature Box Mean Cov Cost}.
Context (threshold : PartialFitLog Feature → Real).
Context (dist : PartialFitLog Feature → list Feature → list Z → Cost).
Implicit Types (self : Tracker Feature Box Mean Cov Real (PartialFitLog Feature)).
Implicit Types (calls : list (Call Feature Box)).

Lemma collected_lengths (trks : list (Track Feature Mean Cov)) :
  length (collected_targets trks) = length (collected_features trks).
Proof.
  unfold collected_targets, collected_features.
  induction (filter (λ t, is_confirmed t) trks) as [|t l IH]; [done|].
  by rewrite !bind_cons, !length_app, IH, length_fmap.
Qed.

Lemma update_logs_once self detections self' :
  update (NN := recording_metric threshold dist) self detections
    = Some self' →
  ∃ features targets active_targets,
    metric self' = metric self ++ [(features, targets, active_targets)] ∧
    length targets = length features.
Proof.
  intros Hu. apply update_Some in Hu as ([[m ut] ud] & self1 & _ & Ha & ->).
  destruct (apply_outcomes_Some _ _ _ _ _ _ Ha)
    as (_ & _ & _ & _ & _ & _ & _ & _ & Hmet & _).
  rewrite refresh_gallery_eq.
  cbn [metric partial_fit recording_metric prune set_tracks].
  rewrite Hmet. eexists _, _, _. split; [done|]. apply collected_lengths.
Qed.

(** X7: with a metric that logs its [partial_fit] calls, a session adds to
    the log exactly one entry for each of its calls of [update], in order,
    and none for [predict]; every entry carries as many targets as
    features. *)
Theorem X7_one_partial_fit_per_update self0 calls self :
  run (NN := recording_metric threshold dist) self0 calls = Some self →
  ∃ entries,
    metric self = metric self0 ++ entries ∧
    length entries = count_updates calls ∧
    Forall (λ e, length e.1.2 = length e.1.1) entries.
Proof.
  unfold run. revert self0. induction calls as [|c calls IH]; intros self0.
  - simpl. intros [= <-]. exists []. by rewrite app_nil_r.
  - intros Hrun. apply for_each_cons_Some in Hrun as (s1 & Hc & Hrun).
    destruct (IH _ Hrun) as (entries & Hmet & Hlen & Hall).
    destruct c as [|detections]; simpl in Hc.
    + injection Hc as <-. by exists entries.
    + apply update_logs_once in Hc as (fs & ts & act & Hs1 & Hft).
      exists ((fs, ts, act) :: entries). split_and!.
      * by rewrite Hmet, Hs1, <-(assoc (++)).
      * simpl. by rewrite Hlen.
      * by constructor.
Qed.

End further_recorded.

(** ** The further properties at work on the concrete world *)

Section further_demo.
Local Existing Instances demo_kf demo_metric demo_la demo_iou.

Lemma X1_update_returns_iff_witness :
  _match demo_self demo_detections
    = Some ([(0, 0); (1, 1); (2, 2)]%nat, [3%nat], [3%nat]) ∧
  is_Some (update demo_self demo_detections).
Proof.
  assert (_match demo_self demo_detections
          = Some ([(0, 0); (1, 1); (2, 2)]%nat, [3%nat], [3%nat])) as Hm
    by (vm_compute; reflexivity).
  split; [exact Hm|].
  apply (proj2 (X1_update_returns_iff demo_self demo_detections)).
  exists [(0, 0); (1, 1); (2, 2)]%nat, [3%nat], [3%nat].
  split; [exact Hm|]. by repeat constructor.
Defined.

Lemma X3_gated_metric_returns_iff_witness :
  in_range demo_tracks [0; 2]%nat ∧ in_range demo_detections [1; 3]%nat ∧
  is_Some (gated_metric demo_self demo_tracks demo_detections
             [0; 2]%nat [1; 3]%nat) ∧
  gated_metric demo_self demo_tracks demo_detections [0; 7]%nat [1%nat]
    = None.
Proof.
  assert (in_range demo_tracks [0; 2]%nat) as Ht by (by repeat constructor).
  assert (in_range demo_detections [1; 3]%nat) as Hd
    by (by repeat constructor).
  split_and!; [done..| |].
  - by apply (proj1 (X3_gated_metric_returns_iff demo_self demo_tracks
                       demo_detections [0; 2]%nat [1; 3]%nat)).
  - destruct (gated_metric demo_self demo_tracks demo_detections
                [0; 7]%nat [1%nat]) as [c|] eqn:Hc; [|done].
    destruct (proj1 (proj1 (X3_gated_metric_returns_iff demo_self demo_tracks
                              demo_detections [0; 7]%nat [1%nat]))
                (ex_intro _ c Hc)) as [Hbad _].
    apply Forall_cons in Hbad as [_ Hbad].
    apply Forall_cons in Hbad as [Hbad _]. simpl in Hbad. lia.
Defined.

Lemma X4_confirmed_unconfirmed_split_witness :
  confirmed_tracks demo_self = [0; 2; 3]%nat ∧
  unconfirmed_tracks demo_self = [1%nat] ∧
  confirmed_tracks demo_self ++ unconfirmed_tracks demo_self
    ≡ₚ [0; 1; 2; 3]%nat.
Proof.
  split; [reflexivity|]. split; [reflexivity|].
  apply (X4_confirmed_unconfirmed_split demo_self).
Defined.

Lemma X5_settings_never_change_witness :
  ∃ self, run (Tracker_init ([] : PartialFitLog nat) 0%nat 70 1) demo_session
          = Some self ∧
          max_age self = 70 ∧ n_init self = 1.
Proof.
  destruct (run (Tracker_init ([] : PartialFitLog nat) 0%nat 70 1)
              demo_session) as [self|] eqn:Hrun; [|by vm_compute in Hrun].
  exists self. split; [done|].
  by destruct (X5_settings_never_change _ _ _ Hrun) as (_ & -> & -> & _).
Defined.

Lemma X6_predict_iterated_witness :
  time_since_update <$> tracks (Nat.iter 2 predict demo_self) = [3; 3; 3; 5] ∧
  _next_id (Nat.iter 2 predict demo_self) = 5.
Proof.
  destruct (X6_predict_iterated demo_self 2)
    as (Htr & (_ & _ & Hn & _) & _ & _).
  by rewrite Htr, Hn.
Defined.

Lemma X7_one_partial_fit_per_update_witness :
  ∃ self, run (Tracker_init ([] : PartialFitLog nat) 0%nat 70 1) demo_session
          = Some self ∧
          length (metric self) = 2%nat.
Proof.
  destruct (run (Tracker_init ([] : PartialFitLog nat) 0%nat 70 1)
              demo_session) as [self|] eqn:Hrun; [|by vm_compute in Hrun].
  exists self. split; [done|].
  destruct (X7_one_partial_fit_per_update (λ _, 0%nat) (λ _, Dist) _ _ _ Hrun)
    as (entries & -> & Hlen & _).
  exact Hlen.
Defined.

Lemma X8_update_accounting_witness :
  cascade_contract demo_self demo_detections ∧
  min_cost_contract demo_self demo_detections ∧
  ∃ self', update demo_self demo_detections = Some self' ∧
           _next_id self' = 6.
Proof.
  split; [apply demo_cascade_contract|].
  split; [apply demo_min_cost_contract|].
  destruct (X8_update_accounting demo_self demo_detections
              (demo_cascade_contract _ _) (demo_min_cost_contract _ _))
    as (m & ut & ud & self' & Hm & Hu & _ & _ & _ & _ & Hn & _).
  exists self'. split; [done|].
  vm_compute in Hm. injection Hm as <- <- <-. exact Hn.
Defined.

Lemma X9_unmatched_order_irrelevant_witness :
  [3; 1]%nat ≡ₚ [1; 3]%nat ∧
  apply_outcomes demo_self demo_detections ([(0, 0)]%nat, [3; 1]%nat, [])
  = apply_outcomes demo_self demo_detections ([(0, 0)]%nat, [1; 3]%nat, []).
Proof.
  assert ([3; 1]%nat ≡ₚ [1; 3]%nat) as Hp by apply perm_swap.
  split; [exact Hp|]. by apply X9_unmatched_order_irrelevant.
Defined.

End further_demo.

Section further_rogue.
Local Existing Instances demo_kf demo_metric rogue_la demo_iou.

Lemma X2_match_raises_on_bad_leftover_witness :
  stage_a demo_self demo_detections
    = Some ([], [9%nat], [0; 1; 2; 3]%nat) ∧
  9%nat ∈ [9%nat] ∧ (length (tracks demo_self) ≤ 9)%nat ∧
  _match demo_self demo_detections = None ∧
  update demo_self demo_detections = None.
Proof.
  assert (stage_a demo_self demo_detections
          = Some ([], [9%nat], [0; 1; 2; 3]%nat)) as Ha by reflexivity.
  assert (9%nat ∈ [9%nat]) as Hk by (by constructor).
  assert (length (tracks demo_self) ≤ 9)%nat as Hlen by (simpl; lia).
  split_and!; [done..| |];
    by destruct (X2_match_raises_on_bad_leftover demo_self demo_detections
                   _ _ _ _ Ha Hk Hlen).
Defined.

End further_rogue.
